(** * D03: no bindings to properties of C++ registered objects

    A shallow embedding of the lint pass [CppObjectBindingCheck]
    (src/checks/D03NoCppBindingsForProperties.cpp) and the properties of
    its scope walk, its binding classification and the fix it builds.

    - The tree of elements lives in a store, a finite map from handles to
      nodes; an element is a handle, and its parent scope and child scopes
      are handles again, so that a parent chain may close on itself.
    - The two [while] loops that follow parent links take fuel, one unit
      per turn, and answer [None] when it runs out.
    - A function that calls [emitWarning] returns the warnings it emits, in
      the order of the calls.
    - [checkCppObjectBindings], which [run] calls, is not among the source
      files; its loop over the bindings is modelled from the
      specification and marked as such.  Everything else follows the
      source. *)

From Stdlib Require Import String Ascii ZArith NArith List Lia.
From stdpp Require Import base option list gmap strings relations.

Local Open Scope string_scope.
Local Open Scope list_scope.
Local Open Scope Z_scope.
Local Open Scope nat_scope.

#[local] Arguments String.append !_ _ / : simpl nomatch.

(** ** QString and QChar

    A [QString] is modelled as a [string]; its characters are the Latin-1
    part of [QChar]. *)

Module QChar.

Definition code (c : ascii) : N := N_of_ascii c.

Definition inRange (lo hi c : ascii) : bool :=
  (code lo <=? code c)%N && (code c <=? code hi)%N.

(** [QChar::isSpace]: U+0020, U+0009..U+000D, U+0085 and U+00A0 (the
    separators above U+00FF are outside the Latin-1 part). *)
Definition isSpace (c : ascii) : bool :=
  (code c =? 32)%N
  || ((9 <=? code c)%N && (code c <=? 13)%N)
  || (code c =? 133)%N
  || (code c =? 160)%N.

End QChar.

Module QString.

Fixpoint all (f : ascii -> bool) (s : string) : bool :=
  match s with
  | EmptyString => true
  | String c t => f c && all f t
  end.

(** [s.startsWith(c)] *)
Definition startsWith (s : string) (c : ascii) : bool :=
  match s with
  | EmptyString => false
  | String a _ => Ascii.eqb a c
  end.

(** [s.startsWith(t)] for a string [t], used by [contains]. *)
Fixpoint hasPrefix (t s : string) : bool :=
  match t with
  | EmptyString => true
  | String a t' =>
      match s with
      | EmptyString => false
      | String b s' => Ascii.eqb a b && hasPrefix t' s'
      end
  end.

(** [s.contains(t)] with the default [Qt::CaseSensitive]: [t] occurs in
    [s] at some position, compared character by character. *)
Fixpoint contains (s t : string) : bool :=
  hasPrefix t s
  || match s with
     | EmptyString => false
     | String _ s' => contains s' t
     end.

(** [s.split(sep)] with the default [Qt::KeepEmptyParts]: the result is
    never empty, and has one more part than [s] has separators. *)
Fixpoint split (sep : ascii) (s : string) : list string :=
  match s with
  | EmptyString => [EmptyString]
  | String c t =>
      if Ascii.eqb c sep then EmptyString :: split sep t
      else match split sep t with
           | seg :: rest => String c seg :: rest
           | [] => [String c EmptyString]
           end
  end.

Fixpoint trimLeft (s : string) : string :=
  match s with
  | EmptyString => EmptyString
  | String c t => if QChar.isSpace c then trimLeft t else s
  end.

Fixpoint trimRight (s : string) : string :=
  match s with
  | EmptyString => EmptyString
  | String c t =>
      match trimRight t with
      | EmptyString => if QChar.isSpace c then EmptyString else String c EmptyString
      | t' => String c t'
      end
  end.

(** [s.trimmed()]: whitespace removed from both ends. *)
Definition trimmed (s : string) : string := trimRight (trimLeft s).

(** [QString(template).arg(a1, ..., an)]: every place marker [%k] with
    [1 <= k <= n] is replaced by [ak], all in one pass over the template,
    so that text brought in by an argument is never scanned again.  The
    templates of this pass use the markers [%1], [%2] and [%3] only, each
    followed by a character that is not a digit. *)
Definition markerIndex (c : ascii) : option nat :=
  if QChar.inRange "1" "9" c then Some (N.to_nat (QChar.code c) - 49) else None.

Fixpoint arg (template : string) (args : list string) : string :=
  match template with
  | String "%" (String d rest as after) =>
      match markerIndex d ≫= (λ k, args !! k) with
      | Some a => a +:+ arg rest args
      | None => String "%" (arg after args)
      end
  | String c rest => String c (arg rest args)
  | EmptyString => EmptyString
  end.

End QString.

(** [QStringList::contains]: some entry equals [s]. *)
Definition QStringList_contains (l : list string) (s : string) : bool :=
  existsb (String.eqb s) l.

(** ** Regular expressions

    The one pattern of the pass is a literal; it is kept as a syntax tree
    and run by derivatives. *)

Module Regex.

Inductive t : Type :=
| Void
| Eps
| Class (f : ascii -> bool)
| Cat (r1 r2 : t)
| Alt (r1 r2 : t)
| Star (r : t).

(** The strings a pattern matches in full. *)
Inductive matches : t -> string -> Prop :=
| m_eps : matches Eps EmptyString
| m_class f c : f c = true -> matches (Class f) (String c EmptyString)
| m_cat r1 r2 s1 s2 : matches r1 s1 -> matches r2 s2 -> matches (Cat r1 r2) (s1 +:+ s2)
| m_alt_l r1 r2 s : matches r1 s -> matches (Alt r1 r2) s
| m_alt_r r1 r2 s : matches r2 s -> matches (Alt r1 r2) s
| m_star_nil r : matches (Star r) EmptyString
| m_star_cons r s1 s2 : matches r s1 -> matches (Star r) s2 -> matches (Star r) (s1 +:+ s2).

Fixpoint nullable (r : t) : bool :=
  match r with
  | Void => false
  | Eps => true
  | Class _ => false
  | Cat r1 r2 => nullable r1 && nullable r2
  | Alt r1 r2 => nullable r1 || nullable r2
  | Star _ => true
  end.

Fixpoint deriv (c : ascii) (r : t) : t :=
  match r with
  | Void => Void
  | Eps => Void
  | Class f => if f c then Eps else Void
  | Cat r1 r2 =>
      if nullable r1 then Alt (Cat (deriv c r1) r2) (deriv c r2)
      else Cat (deriv c r1) r2
  | Alt r1 r2 => Alt (deriv c r1) (deriv c r2)
  | Star r' => Cat (deriv c r') (Star r')
  end.

(** [QRegularExpression(^r).match(s).hasMatch()]: with the anchor [^] in
    front, a match can only start at the first character, and it may end
    anywhere: some prefix of [s] is matched by [r]. *)
Fixpoint hasMatch (r : t) (s : string) : bool :=
  nullable r
  || match s with
     | EmptyString => false
     | String c s' => hasMatch (deriv c r) s'
     end.

Definition chr (c : ascii) : t := Class (Ascii.eqb c).

End Regex.

(** [[a-zA-Z_]] *)
Definition isIdentStart (c : ascii) : bool :=
  QChar.inRange "a" "z" c || QChar.inRange "A" "Z" c || Ascii.eqb c "_".

(** [[a-zA-Z0-9_]] *)
Definition isIdentChar (c : ascii) : bool :=
  QChar.inRange "a" "z" c || QChar.inRange "A" "Z" c || QChar.inRange "0" "9" c
  || Ascii.eqb c "_".

(** [\s] of a pattern compiled without [UseUnicodePropertiesOption]: the
    ASCII white space, U+0009..U+000D and U+0020. *)
Definition isPatternSpace (c : ascii) : bool :=
  ((9 <=? QChar.code c)%N && (QChar.code c <=? 13)%N) || (QChar.code c =? 32)%N.

(** [[a-zA-Z_][a-zA-Z0-9_]*] *)
Definition identifierPattern : Regex.t :=
  Regex.Cat (Regex.Class isIdentStart) (Regex.Star (Regex.Class isIdentChar)).

Definition spacesPattern : Regex.t := Regex.Star (Regex.Class isPatternSpace).

(** The pattern of [isCppObjectBinding]: behind the anchor [^], one group
    made of [[a-zA-Z_][a-zA-Z0-9_]*], [\s*], [\.], [\s*] and
    [[a-zA-Z_][a-zA-Z0-9_]*] in this order.  The anchor is part of
    [Regex.hasMatch]. *)
Definition cppRefPattern : Regex.t :=
  Regex.Cat identifierPattern
    (Regex.Cat spacesPattern
       (Regex.Cat (Regex.chr ".")
          (Regex.Cat spacesPattern identifierPattern))).

(** ** The host's model: source locations, bindings, elements

    The types of the host are Qt's ([QQmlSA::Element], [QQmlSA::Binding],
    [QQmlSA::SourceLocation], [QQmlSA::FixSuggestion]); the pass reads them
    through the accessors below, named as the source calls them.  The
    source does not show how the text of a binding is read: the accessor is
    [expressionText], the name of the specification (6). *)

Module SourceLocation.

(** [QQmlSA::SourceLocation] keeps its offset and its length as [quint32]. *)
Record t : Type := mk { offset : Z; length : Z }.

Definition quint32 (z : Z) : Z := (z mod 2 ^ 32)%Z.

Definition setOffset (l : t) (o : Z) : t := mk (quint32 o) (length l).

End SourceLocation.

(** A [QQmlSA::Element] is a handle on a node of the host's tree. *)
Definition Element : Type := nat.

Module Binding.

Record t : Type := mk {
  propertyName : string;
  expressionText : string;
  sourceLocation : SourceLocation.t;
  containingElement : Element
}.

End Binding.

Module Node.

Record t : Type := mk {
  id : string;
  baseTypeName : string;
  childScopes : list Element;
  parentScope : option Element;
  propertyBindings : list Binding.t;
  sourceLocation : SourceLocation.t
}.

End Node.

(** The tree the host has built: the node behind every handle.  A handle
    with no node is a null element: no id, no parent, no children, no
    bindings. *)
Abbreviation Store := (gmap Element Node.t).

Definition id (st : Store) (e : Element) : string :=
  from_option Node.id EmptyString (st !! e).

Definition baseTypeName (st : Store) (e : Element) : string :=
  from_option Node.baseTypeName EmptyString (st !! e).

Definition childScopes (st : Store) (e : Element) : list Element :=
  from_option Node.childScopes [] (st !! e).

Definition parentScope (st : Store) (e : Element) : option Element :=
  st !! e ≫= Node.parentScope.

Definition propertyBindings (st : Store) (e : Element) : list Binding.t :=
  from_option Node.propertyBindings [] (st !! e).

Definition sourceLocation (st : Store) (e : Element) : SourceLocation.t :=
  from_option Node.sourceLocation (SourceLocation.mk 0 0) (st !! e).

(** ** What the pass hands to the host *)

Inductive LoggerWarningId : Type := qmlsaCppBindingAntiPattern.

Inductive Edit : Type :=
| Insertion (location : SourceLocation.t) (text : string)
| Replacement (location : SourceLocation.t) (text : string).

Module FixSuggestion.

Record t : Type := mk { hint : string; edits : list Edit }.

Definition empty : t := mk EmptyString [].
Definition setHint (f : t) (h : string) : t := mk h (edits f).
Definition addInsertion (f : t) (l : SourceLocation.t) (text : string) : t :=
  mk (hint f) (edits f ++ [Insertion l text]).
Definition addReplacement (f : t) (l : SourceLocation.t) (text : string) : t :=
  mk (hint f) (edits f ++ [Replacement l text]).

End FixSuggestion.

(** One call of [passManager()->emitWarning(message, id, location, fix)]. *)
Record Warning : Type := mkWarning {
  message : string;
  category : LoggerWarningId;
  location : SourceLocation.t;
  fixSuggestion : FixSuggestion.t
}.

(** ** The pass *)

Definition cppTypes : list string :=
  [ "QObject";
    "QQuickItem";
    "QAbstractListModel";
    "QSortFilterProxyModel";
    "QTimer";
    "QSettings";
    "QFileSystemWatcher";
    "QNetworkAccessManager" ].

Definition isCppRegisteredType (typeName : string) : bool :=
  QString.startsWith typeName "Q" || QStringList_contains cppTypes typeName.

(** The lambda given to [std::any_of] in [isCppRegisteredObject]. *)
Definition isRegisteredChild (st : Store) (objectId : string) (child : Element) : bool :=
  String.eqb (id st child) objectId && isCppRegisteredType (baseTypeName st child).

(** The [while (scope.has_value())] loop of [isCppRegisteredObject]; one
    unit of fuel pays for one turn of the loop, [None] is a loop that has
    not ended when the fuel is spent. *)
Fixpoint scopeWalk (fuel : nat) (st : Store) (objectId : string)
    (scope : option Element) {struct fuel} : option bool :=
  match scope with
  | None => Some false
  | Some s =>
      match fuel with
      | O => None
      | S fuel' =>
          let children := childScopes st s in
          let found := existsb (isRegisteredChild st objectId) children in
          if found then Some true
          else scopeWalk fuel' st objectId (parentScope st s)
      end
  end.

Definition isCppRegisteredObject (fuel : nat) (st : Store) (objectId : string)
    (element : Element) : option bool :=
  scopeWalk fuel st objectId (parentScope st element).

(** The [while (element.parentScope().has_value())] loop of
    [getRootElement]. *)
Fixpoint rootWalk (fuel : nat) (st : Store) (element : Element) {struct fuel}
    : option Element :=
  match parentScope st element with
  | None => Some element
  | Some p =>
      match fuel with
      | O => None
      | S fuel' => rootWalk fuel' st p
      end
  end.

Definition getRootElement (fuel : nat) (st : Store) (binding : Binding.t)
    : option Element :=
  rootWalk fuel st (Binding.containingElement binding).

(** The two out-parameters are returned as a pair; [None] is [false]. *)
Definition parseCppObjectReference (script : string) : option (string * string) :=
  match QString.split "." script with
  | part0 :: part1 :: _ => Some (QString.trimmed part0, QString.trimmed part1)
  | _ => None
  end.

Definition isEnumBinding (script : string) (element : Element) : bool :=
  match parseCppObjectReference script with
  | Some (objectId, propertyName) =>
      QString.contains propertyName "State" || QString.contains propertyName "Mode"
      || QString.contains propertyName "Type" || QString.contains propertyName "Policy"
      || QString.contains script "::"
  | None => false
  end.

Definition isCppObjectBinding (fuel : nat) (st : Store) (script : string)
    (element : Element) : option bool :=
  if negb (Regex.hasMatch cppRefPattern script) then Some false
  else
    let objectId := QString.trimmed (hd EmptyString (QString.split "." script)) in
    isCppRegisteredObject fuel st objectId element.

(** The character written [\n] in the source. *)
Definition newline : ascii := "010"%char.

Definition warningMessage : string :=
  "Property binding to C++ object detected. Consider using property alias instead.".

(** The warnings handed to [emitWarning], in the order of the calls. *)
Definition emitCppBindingWarning (fuel : nat) (st : Store) (binding : Binding.t)
    (objectId propertyName : string) : option (list Warning) :=
  let aliasName := QString.arg "als_%1_%2" [objectId; propertyName] in
  let message := warningMessage in
  let fixSuggestion := FixSuggestion.empty in
  let fixSuggestion :=
    FixSuggestion.setHint fixSuggestion
      (QString.arg "Add property alias: property alias %1: %2.%3"
         [aliasName; objectId; propertyName]) in
  rootElement ← getRootElement fuel st binding;
  let insertLocation := sourceLocation st rootElement in
  let insertLocation :=
    SourceLocation.setOffset insertLocation
      (SourceLocation.offset insertLocation + SourceLocation.length insertLocation - 1)%Z in
  let fixSuggestion :=
    FixSuggestion.addInsertion fixSuggestion insertLocation
      (QString.arg (String newline "    property alias %1: %2.%3")
         [aliasName; objectId; propertyName]) in
  let fixSuggestion :=
    FixSuggestion.addReplacement fixSuggestion (Binding.sourceLocation binding) aliasName in
  Some [mkWarning message qmlsaCppBindingAntiPattern (Binding.sourceLocation binding)
          fixSuggestion].

(** The source names neither the binding nor the element among the
    parameters of [cppObjectReference], and its body uses both: they are
    parameters here. *)
Definition cppObjectReference (fuel : nat) (st : Store) (binding : Binding.t)
    (element : Element) (script objectId propertyName : string)
    : option (list Warning) :=
  if negb (isEnumBinding script element) then
    emitCppBindingWarning fuel st binding objectId propertyName
  else Some [].

(** Modelled from the spec: the body of the loop of [checkCppObjectBindings],
    a function that [run] calls and that is not among the source files.
    Following the control flow of the specification (2 and 4.2): for the
    expression text of the binding, ask [isCppObjectBinding]; if it says
    yes, extract the reference with [parseCppObjectReference] and hand it to
    [cppObjectReference], which emits unless the access is enum-like. *)
Definition checkBinding (fuel : nat) (st : Store) (element : Element)
    (binding : Binding.t) : option (list Warning) :=
  let script := Binding.expressionText binding in
  isObject ← isCppObjectBinding fuel st script element;
  if (isObject : bool) then
    match parseCppObjectReference script with
    | Some (objectId, propertyName) =>
        cppObjectReference fuel st binding element script objectId propertyName
    | None => Some []
    end
  else Some [].

(** Modelled from the spec: the loop of [checkCppObjectBindings] over the
    bindings, each processed to completion before the next, in order. *)
Fixpoint checkBindings (fuel : nat) (st : Store) (element : Element)
    (bindings : list Binding.t) : option (list Warning) :=
  match bindings with
  | [] => Some []
  | binding :: rest =>
      ws ← checkBinding fuel st element binding;
      ws' ← checkBindings fuel st element rest;
      Some (ws ++ ws')
  end.

(** Modelled from the spec: [checkCppObjectBindings] itself, the loop run
    on the property bindings of the element. *)
Definition checkCppObjectBindings (fuel : nat) (st : Store) (element : Element)
    : option (list Warning) :=
  checkBindings fuel st element (propertyBindings st element).

Definition isEmpty {A : Type} (l : list A) : bool :=
  match l with
  | [] => true
  | _ => false
  end.

Definition shouldRun (st : Store) (element : Element) : bool :=
  negb (isEmpty (propertyBindings st element)).

Definition run (fuel : nat) (st : Store) (element : Element) : option (list Warning) :=
  checkCppObjectBindings fuel st element.

(** ** Notions the properties are stated with *)

(** An identifier, as the pattern has it: [[a-zA-Z_][a-zA-Z0-9_]*]. *)
Definition isIdentifier (s : string) : bool :=
  match s with
  | EmptyString => false
  | String c t => isIdentStart c && QString.all isIdentChar t
  end.

Definition notDot (c : ascii) : bool := negb (Ascii.eqb c ".").

(** [p] is the scope that directly encloses [c]. *)
Definition parentOf (st : Store) (c p : Element) : Prop := parentScope st c = Some p.

(** [s] is one of the scopes around [e]: its parent, the parent of its
    parent, and so on. *)
Definition encloses (st : Store) (s e : Element) : Prop := tc (parentOf st) e s.

(** No element is among its own enclosing scopes. *)
Definition acyclic (st : Store) : Prop := ∀ e, ¬ encloses st e e.

(** [e] is [n] parent links away from an element with no parent scope. *)
Inductive rootDistance (st : Store) : Element -> nat -> Prop :=
| rd_root e : parentScope st e = None -> rootDistance st e 0
| rd_step e p n : parentScope st e = Some p -> rootDistance st p n -> rootDistance st e (S n).

(** The scope [s] has a child declared with the id [objectId] whose base
    type passes [isCppRegisteredType]. *)
Definition declaresRegistered (st : Store) (objectId : string) (s : Element) : Prop :=
  ∃ child, child ∈ childScopes st s ∧ id st child = objectId
           ∧ isCppRegisteredType (baseTypeName st child) = true.

(** The search as the specification words it (4.1): in each scope, outwards
    from the enclosing scope of the element, look for a child declared with
    the id; the first scope that has one decides, by the base type of that
    child. *)
Fixpoint nearestDeclarationWalk (fuel : nat) (st : Store) (objectId : string)
    (scope : option Element) {struct fuel} : option bool :=
  match scope with
  | None => Some false
  | Some s =>
      match fuel with
      | O => None
      | S fuel' =>
          match List.find (λ child, String.eqb (id st child) objectId) (childScopes st s) with
          | Some child => Some (isCppRegisteredType (baseTypeName st child))
          | None => nearestDeclarationWalk fuel' st objectId (parentScope st s)
          end
      end
  end.

Definition isNativeObjectReference (fuel : nat) (st : Store) (objectId : string)
    (element : Element) : option bool :=
  nearestDeclarationWalk fuel st objectId (parentScope st element).

(** The pattern as the specification words it (4.2): optional white space,
    identifier, optional white space, dot, optional white space, identifier. *)
Definition specRefPattern : Regex.t := Regex.Cat spacesPattern cppRefPattern.

(** The insertion text as the specification words it (4.3): a new line, then
    [alias <aliasName>: <objectId>.<propertyName>]. *)
Definition specInsertionText (aliasName objectId propertyName : string) : string :=
  String newline ("alias " +:+ aliasName +:+ ": " +:+ objectId +:+ "." +:+ propertyName).

(** The insertion edit of a fix, if it has one. *)
Definition insertionOf (f : FixSuggestion.t) : option (SourceLocation.t * string) :=
  match FixSuggestion.edits f with
  | Insertion l text :: _ => Some (l, text)
  | _ => None
  end.

(** [t] occurs in [s], letter for letter. *)
Definition occursIn (t s : string) : Prop := exists pre post, s = pre +:+ t +:+ post.

(** The words [isEnumBinding] looks for in the property name. *)
Definition enumTerms : list string := ["State"; "Mode"; "Type"; "Policy"].

(** The name the fix gives to the alias, and the declaration it inserts. *)
Definition aliasNameOf (objectId propertyName : string) : string :=
  "als_" +:+ objectId +:+ "_" +:+ propertyName.

Definition aliasDeclarationOf (objectId propertyName : string) : string :=
  "property alias " +:+ aliasNameOf objectId propertyName +:+ ": "
  +:+ objectId +:+ "." +:+ propertyName.

(** The place of the insertion: the location of the root, its offset moved
    to [offset + length - 1] in [quint32] arithmetic. *)
Definition insertLocationOf (rootLocation : SourceLocation.t) : SourceLocation.t :=
  SourceLocation.mk
    (SourceLocation.quint32
       (SourceLocation.offset rootLocation + SourceLocation.length rootLocation - 1)%Z)
    (SourceLocation.length rootLocation).

(** The one warning [emitCppBindingWarning] hands over, written out. *)
Definition warningOf (rootLocation : SourceLocation.t) (binding : Binding.t)
    (objectId propertyName : string) : Warning :=
  mkWarning warningMessage qmlsaCppBindingAntiPattern (Binding.sourceLocation binding)
    (FixSuggestion.mk
       ("Add property alias: " +:+ aliasDeclarationOf objectId propertyName)
       [ Insertion (insertLocationOf rootLocation)
           (String newline ("    " +:+ aliasDeclarationOf objectId propertyName));
         Replacement (Binding.sourceLocation binding) (aliasNameOf objectId propertyName) ]).

(** [s] is [e] itself or one of the scopes around [e]. *)
Definition enclosesOrIs (st : Store) (s e : Element) : Prop := rtc (parentOf st) e s.

(** The scope walk for [objectId] started at [e] finds a registered child
    in the [n]-th scope it inspects, after [n - 1] scopes without one. *)
Inductive foundDistance (st : Store) (objectId : string) : Element -> nat -> Prop :=
| fd_here e s :
    parentScope st e = Some s ->
    existsb (isRegisteredChild st objectId) (childScopes st s) = true ->
    foundDistance st objectId e 1
| fd_up e s n :
    parentScope st e = Some s ->
    existsb (isRegisteredChild st objectId) (childScopes st s) = false ->
    foundDistance st objectId s n ->
    foundDistance st objectId e (S n).

(** The replacement edit of a fix, if it has one behind the insertion. *)
Definition replacementOf (f : FixSuggestion.t) : option (SourceLocation.t * string) :=
  match FixSuggestion.edits f with
  | _ :: Replacement l text :: _ => Some (l, text)
  | _ => None
  end.

Definition notUnderscore (c : ascii) : bool := negb (Ascii.eqb c "_").

(** ** Trees used as examples *)

Definition plainNode (name type : string) (children : list Element)
    (parent : option Element) (l : SourceLocation.t) : Node.t :=
  Node.mk name type children parent [] l.

(** The tree of the specification's example: a root with two children, an
    object [cppObj] of base type [QTimer] and an item that binds one of its
    properties to [script].  [rootLocation] is the source span of the root. *)
Definition siblingBinding (script : string) : Binding.t :=
  Binding.mk "interval" script (SourceLocation.mk 60 15) 2.

Definition siblingStore (rootLocation : SourceLocation.t) (script : string) : Store :=
  <[0 := plainNode "" "Item" [1; 2] None rootLocation]>
  (<[1 := plainNode "cppObj" "QTimer" [] (Some 0) (SourceLocation.mk 10 30)]>
  (<[2 := Node.mk "" "Item" [] (Some 0) [siblingBinding script] (SourceLocation.mk 45 60)]>
   ∅)).

(** A plain declaration of [x] in the inner scope 2, a [QTimer] declared [x]
    in the root, and the element 4 of the inner scope that binds [x.y]. *)
Definition shadowBinding : Binding.t :=
  Binding.mk "y" "x.y" (SourceLocation.mk 70 6) 4.

Definition shadowStore : Store :=
  <[0 := plainNode "" "Item" [1; 2] None (SourceLocation.mk 0 120)]>
  (<[1 := plainNode "x" "QTimer" [] (Some 0) (SourceLocation.mk 10 20)]>
  (<[2 := plainNode "" "Item" [3; 4] (Some 0) (SourceLocation.mk 35 80)]>
  (<[3 := plainNode "x" "Item" [] (Some 2) (SourceLocation.mk 45 15)]>
  (<[4 := Node.mk "" "Item" [] (Some 2) [shadowBinding] (SourceLocation.mk 62 40)]>
   ∅)))).

(** As [shadowStore], with the root's [x] a plain [Item] too. *)
Definition plainStore : Store :=
  <[1 := plainNode "x" "Item" [] (Some 0) (SourceLocation.mk 10 20)]> shadowStore.

(** The binding sits on the root itself, next to the declaration of
    [cppObj]. *)
Definition rootBinding : Binding.t :=
  Binding.mk "interval" "cppObj.interval" (SourceLocation.mk 40 25) 0.

Definition rootBindingStore : Store :=
  <[0 := Node.mk "" "Item" [1] None [rootBinding] (SourceLocation.mk 0 80)]>
  (<[1 := plainNode "cppObj" "QTimer" [] (Some 0) (SourceLocation.mk 10 20)]>
   ∅).

(** Two elements that are each the parent scope of the other. *)
Definition cyclicStore : Store :=
  <[0 := plainNode "" "Item" [1] (Some 1) (SourceLocation.mk 0 10)]>
  (<[1 := plainNode "" "Item" [0] (Some 0) (SourceLocation.mk 0 10)]>
   ∅).

(** The check used on the example trees: every parent handle is smaller
    than the handle of its child. *)
Definition parentsBelow (st : Store) : bool :=
  forallb (λ '(e, n), match Node.parentScope n with
                      | Some p => p <? e
                      | None => true
                      end)
          (map_to_list st).

(** * Properties *)

(** ** Strings *)

Section StringFacts.

Lemma append_nil_r (s : string) : s +:+ "" = s.
Proof. induction s as [|c s IH]; simpl; [reflexivity | now rewrite IH]. Qed.

Lemma append_assoc (a b c : string) : (a +:+ b) +:+ c = a +:+ (b +:+ c).
Proof. induction a as [|x a IH]; simpl; [reflexivity | now rewrite IH]. Qed.

Lemma append_eq_nil (a b : string) : a +:+ b = "" -> a = "" /\ b = "".
Proof. destruct a; simpl; [auto | discriminate]. Qed.

Lemma all_app (f : ascii -> bool) (a b : string) :
  QString.all f (a +:+ b) = QString.all f a && QString.all f b.
Proof.
  induction a as [|x a IH]; simpl; [reflexivity|].
  rewrite IH. now rewrite andb_assoc.
Qed.

Lemma all_impl (f g : ascii -> bool) (s : string) :
  (forall c, f c = true -> g c = true) ->
  QString.all f s = true -> QString.all g s = true.
Proof.
  intros Hfg. induction s as [|c s IH]; simpl; [reflexivity|].
  intros [Hc Hs]%andb_true_iff. rewrite (Hfg _ Hc), (IH Hs). reflexivity.
Qed.

Lemma hasPrefix_spec (t s : string) :
  QString.hasPrefix t s = true <-> exists post, s = t +:+ post.
Proof.
  revert s. induction t as [|a t IH]; intros s; simpl.
  - split; [intros _; now exists s | reflexivity].
  - destruct s as [|b s].
    + split; [discriminate | intros [post H]; discriminate].
    + rewrite andb_true_iff, Ascii.eqb_eq, IH. split.
      * intros [-> [post ->]]. now exists post.
      * intros [post H]. injection H as -> ->. split; [reflexivity | now exists post].
Qed.

(** [contains] is the search for an occurrence, letter for letter. *)
Lemma contains_spec (s t : string) :
  QString.contains s t = true <-> exists pre post, s = pre +:+ t +:+ post.
Proof.
  induction s as [|c s IH].
  - cbn [QString.contains]. rewrite orb_false_r, hasPrefix_spec. split.
    + intros [post H]. now exists "", post.
    + intros [pre [post H]]. destruct pre; [now exists post | discriminate].
  - cbn [QString.contains]. rewrite orb_true_iff, hasPrefix_spec, IH. split.
    + intros [[post H] | [pre [post H]]].
      * now exists "", post.
      * exists (String c pre), post. simpl. now rewrite H.
    + intros [[|x pre] [post H]].
      * left. now exists post.
      * right. simpl in H. injection H as -> ->. now exists pre, post.
Qed.

Lemma split_not_nil (sep : ascii) (s : string) : QString.split sep s <> [].
Proof.
  destruct s as [|c s]; simpl; [discriminate|].
  destruct (Ascii.eqb c sep); [discriminate|].
  destruct (QString.split sep s); discriminate.
Qed.

(** The first part runs up to the first separator. *)
Lemma split_app (sep : ascii) (a b : string) :
  QString.all (fun c => negb (Ascii.eqb c sep)) a = true ->
  QString.split sep (a +:+ String sep b) = a :: QString.split sep b.
Proof.
  induction a as [|x a IH]; simpl.
  - intros _. now rewrite Ascii.eqb_refl.
  - intros [Hx Ha]%andb_true_iff. apply negb_true_iff in Hx. rewrite Hx.
    now rewrite (IH Ha).
Qed.

Lemma split_no_sep (sep : ascii) (a : string) :
  QString.all (fun c => negb (Ascii.eqb c sep)) a = true ->
  QString.split sep a = [a].
Proof.
  induction a as [|x a IH]; simpl; [reflexivity|].
  intros [Hx Ha]%andb_true_iff. apply negb_true_iff in Hx. rewrite Hx.
  now rewrite (IH Ha).
Qed.

Lemma trimLeft_no_space (c : ascii) (s : string) :
  QChar.isSpace c = false -> QString.trimLeft (String c s) = String c s.
Proof. intros H. simpl. now rewrite H. Qed.

Lemma trimLeft_spaces (a b : string) :
  QString.all QChar.isSpace a = true ->
  QString.trimLeft (a +:+ b) = QString.trimLeft b.
Proof.
  induction a as [|x a IH]; simpl; [reflexivity|].
  intros [Hx Ha]%andb_true_iff. rewrite Hx. now apply IH.
Qed.

Lemma trimRight_spaces (s : string) :
  QString.all QChar.isSpace s = true -> QString.trimRight s = "".
Proof.
  induction s as [|c s IH]; simpl; [reflexivity|].
  intros [Hc Hs]%andb_true_iff. now rewrite (IH Hs), Hc.
Qed.

Lemma trimRight_no_space (s : string) :
  QString.all (fun c => negb (QChar.isSpace c)) s = true -> QString.trimRight s = s.
Proof.
  induction s as [|c s IH]; simpl; [reflexivity|].
  intros [Hc Hs]%andb_true_iff. apply negb_true_iff in Hc.
  rewrite (IH Hs), Hc. now destruct s.
Qed.

Lemma trimRight_app_spaces (a b : string) :
  QString.all QChar.isSpace b = true ->
  QString.trimRight (a +:+ b) = QString.trimRight a.
Proof.
  intros Hb. induction a as [|x a IH]; simpl.
  - now apply trimRight_spaces.
  - now rewrite IH.
Qed.

(** A word without white space, followed by white space only, is trimmed
    to the word. *)
Lemma trimmed_word_spaces (c : ascii) (w sp : string) :
  QString.all (fun x => negb (QChar.isSpace x)) (String c w) = true ->
  QString.all QChar.isSpace sp = true ->
  QString.trimmed (String c w +:+ sp) = String c w.
Proof.
  intros Hw Hsp. unfold QString.trimmed.
  pose proof Hw as Hw'. simpl in Hw'. apply andb_true_iff in Hw' as [Hc _].
  apply negb_true_iff in Hc.
  change (String c w +:+ sp) with (String c (w +:+ sp)).
  rewrite trimLeft_no_space by assumption.
  change (String c (w +:+ sp)) with (String c w +:+ sp).
  rewrite trimRight_app_spaces by assumption.
  now apply trimRight_no_space.
Qed.

End StringFacts.

Example split_chain : QString.split "." "a.b.c" = ["a"; "b"; "c"].
Proof. reflexivity. Qed.

Example split_keeps_empty_parts : QString.split "." "a..b." = ["a"; ""; "b"; ""].
Proof. reflexivity. Qed.

Example split_no_dot : QString.split "." "Namespace::Value" = ["Namespace::Value"].
Proof. reflexivity. Qed.

Example trimmed_both_ends : QString.trimmed "  a b  " = "a b".
Proof. reflexivity. Qed.

Example contains_keeps_case :
  QString.contains "currentState" "State" = true
  /\ QString.contains "STATE" "State" = false.
Proof. split; reflexivity. Qed.

Example arg_in_one_pass :
  QString.arg "als_%1_%2" ["%2"; "b"] = "als_%2_b".
Proof. reflexivity. Qed.

(** ** The pattern matcher *)

Section RegexFacts.

Import Regex.

Lemma matches_nil_nullable (r : t) (s : string) :
  matches r s -> s = "" -> nullable r = true.
Proof.
  induction 1 as [ | f c Hf | r1 r2 s1 s2 _ IH1 _ IH2 | r1 r2 s _ IH
                 | r1 r2 s _ IH | r | r s1 s2 _ _ _ _ ]; intros Hs; simpl;
    try reflexivity; try discriminate.
  - apply append_eq_nil in Hs as [H1 H2]. now rewrite IH1, IH2.
  - now rewrite IH.
  - rewrite IH by assumption. apply orb_true_r.
Qed.

Lemma nullable_spec (r : t) : nullable r = true <-> matches r "".
Proof.
  split; [| intros H; now apply (matches_nil_nullable r "")].
  induction r as [ | | f | r1 IH1 r2 IH2 | r1 IH1 r2 IH2 | r IH ]; simpl;
    try discriminate.
  - intros _. constructor.
  - intros [H1 H2]%andb_true_iff. apply (m_cat r1 r2 "" ""); auto.
  - intros [H | H]%orb_true_iff; [apply m_alt_l | apply m_alt_r]; auto.
  - intros _. constructor.
Qed.

Lemma deriv_complete (r : t) (s' : string) :
  matches r s' -> forall c s, s' = String c s -> matches (deriv c r) s.
Proof.
  induction 1 as [ | f c0 Hf | r1 r2 s1 s2 H1 IH1 H2 IH2 | r1 r2 s0 _ IH
                 | r1 r2 s0 _ IH | r | r s1 s2 H1 IH1 H2 IH2 ];
    intros c s Hs; simpl.
  - discriminate.
  - injection Hs as -> <-. rewrite Hf. constructor.
  - destruct s1 as [|x s1]; simpl in Hs.
    + subst s2. apply nullable_spec in H1. rewrite H1.
      apply m_alt_r. now apply IH2.
    + injection Hs as -> <-.
      assert (matches (Cat (deriv c r1) r2) (s1 +:+ s2)) as Hcat
          by (apply m_cat; [now apply IH1 | assumption]).
      destruct (nullable r1); [now apply m_alt_l | assumption].
  - apply m_alt_l. now apply IH.
  - apply m_alt_r. now apply IH.
  - discriminate.
  - destruct s1 as [|x s1]; simpl in Hs.
    + now apply IH2.
    + injection Hs as -> <-. apply m_cat; [now apply IH1 | assumption].
Qed.

Lemma deriv_sound (c : ascii) (r : t) :
  forall s, matches (deriv c r) s -> matches r (String c s).
Proof.
  induction r as [ | | f | r1 IH1 r2 IH2 | r1 IH1 r2 IH2 | r IH ]; simpl; intros s H.
  - inversion H.
  - inversion H.
  - destruct (f c) eqn:Hf; inversion H; subst. now constructor.
  - assert (forall s, matches (Cat (deriv c r1) r2) s -> matches (Cat r1 r2) (String c s))
      as Hcat.
    { intros s0 H0. inversion H0; subst.
      change (String c (s1 +:+ s2)) with (String c s1 +:+ s2).
      apply m_cat; [now apply IH1 | assumption]. }
    destruct (nullable r1) eqn:Hn; [| now apply Hcat].
    inversion H; subst; [now apply Hcat|].
    change (String c s) with ("" +:+ String c s).
    apply m_cat; [now apply nullable_spec | now apply IH2].
  - inversion H; subst; [apply m_alt_l | apply m_alt_r]; auto.
  - inversion H; subst.
    change (String c (s1 +:+ s2)) with (String c s1 +:+ s2).
    apply m_star_cons; [now apply IH | assumption].
Qed.

Lemma deriv_spec (c : ascii) (r : t) (s : string) :
  matches (deriv c r) s <-> matches r (String c s).
Proof.
  split; [apply deriv_sound | intros H; now apply (deriv_complete r (String c s))].
Qed.

(** The matcher answers yes exactly when [r] matches a prefix of the
    subject. *)
Lemma hasMatch_spec (r : t) (s : string) :
  hasMatch r s = true <-> exists p rest, s = p +:+ rest /\ matches r p.
Proof.
  revert r. induction s as [|c s IH]; intros r; simpl.
  - rewrite orb_false_r, nullable_spec. split.
    + intros H. now exists "", "".
    + intros [p [rest [Hs H]]]. symmetry in Hs.
      apply append_eq_nil in Hs as [-> _]. assumption.
  - rewrite orb_true_iff, nullable_spec, IH. split.
    + intros [H | [p [rest [-> H]]]].
      * now exists "", (String c s).
      * exists (String c p), rest. split; [reflexivity | now apply deriv_spec].
    + intros [[|x p] [rest [Hs H]]]; [now left | right].
      simpl in Hs. injection Hs as <- ->.
      exists p, rest. split; [reflexivity | now apply deriv_spec].
Qed.

Lemma matches_cat_iff (r1 r2 : t) (s : string) :
  matches (Cat r1 r2) s <-> exists s1 s2, s = s1 +:+ s2 /\ matches r1 s1 /\ matches r2 s2.
Proof.
  split.
  - intros H. inversion H; subst. eauto.
  - intros [s1 [s2 [-> [H1 H2]]]]. now constructor.
Qed.

Lemma matches_class_iff (f : ascii -> bool) (s : string) :
  matches (Class f) s <-> exists c, s = String c "" /\ f c = true.
Proof.
  split.
  - intros H. inversion H; subst. eauto.
  - intros [c [-> Hc]]. now constructor.
Qed.

Lemma matches_star_class (f : ascii -> bool) (r : t) (s : string) :
  matches r s -> r = Star (Class f) -> QString.all f s = true.
Proof.
  induction 1 as [ | | | | | r | r s1 s2 H1 _ _ IH2 ]; intros Hr; try discriminate.
  - reflexivity.
  - injection Hr as ->. inversion H1 as [ | f' c Hc | | | | | ]; subst. simpl.
    rewrite Hc. now apply IH2.
Qed.

Lemma matches_star_class_iff (f : ascii -> bool) (s : string) :
  matches (Star (Class f)) s <-> QString.all f s = true.
Proof.
  split; [intros H; now apply (matches_star_class f _ s H)|].
  induction s as [|c s IH]; simpl; [intros _; constructor|].
  intros [Hc Hs]%andb_true_iff.
  apply (m_star_cons (Class f) (String c "") s); [now constructor | now apply IH].
Qed.

End RegexFacts.

Lemma identifierPattern_spec (s : string) :
  Regex.matches identifierPattern s <-> isIdentifier s = true.
Proof.
  unfold identifierPattern. rewrite matches_cat_iff. split.
  - intros [s1 [s2 [-> [[c [-> Hc]]%matches_class_iff H2%matches_star_class_iff]]]].
    simpl. now rewrite Hc, H2.
  - destruct s as [|c s]; simpl; [discriminate|].
    intros [Hc Hs]%andb_true_iff. exists (String c ""), s.
    split; [reflexivity|]. split.
    + apply matches_class_iff. eauto.
    + now apply matches_star_class_iff.
Qed.

(** What [cppRefPattern] matches, piece by piece. *)
Lemma cppRefPattern_matches (p : string) :
  Regex.matches cppRefPattern p <->
  exists id1 sp1 sp2 id2,
    p = id1 +:+ sp1 +:+ "." +:+ sp2 +:+ id2
    /\ isIdentifier id1 = true /\ QString.all isPatternSpace sp1 = true
    /\ QString.all isPatternSpace sp2 = true /\ isIdentifier id2 = true.
Proof.
  unfold cppRefPattern, spacesPattern, Regex.chr. split.
  - intros (id1 & r1 & -> & H1 & H)%matches_cat_iff.
    apply matches_cat_iff in H as (sp1 & r2 & -> & Hs1 & H).
    apply matches_cat_iff in H as (d & r3 & -> & Hd & H).
    apply matches_cat_iff in H as (sp2 & id2 & -> & Hs2 & H2).
    apply matches_class_iff in Hd as (c & -> & Hc). apply Ascii.eqb_eq in Hc as <-.
    exists id1, sp1, sp2, id2. split; [reflexivity|].
    rewrite <- !identifierPattern_spec, <- !matches_star_class_iff. auto.
  - intros (id1 & sp1 & sp2 & id2 & -> & H1 & Hs1 & Hs2 & H2).
    apply Regex.m_cat; [now apply identifierPattern_spec|].
    apply Regex.m_cat; [now apply matches_star_class_iff|].
    apply (Regex.m_cat _ _ "." (sp2 +:+ id2)).
    + apply matches_class_iff. exists "."%char. split; [reflexivity | apply Ascii.eqb_refl].
    + apply Regex.m_cat; [now apply matches_star_class_iff | now apply identifierPattern_spec].
Qed.

(** [isCppObjectBinding] goes on exactly for the texts that begin with an
    identifier, white space if any, a dot, white space if any, and an
    identifier; nothing may stand before the first identifier. *)
Lemma cppRefPattern_hasMatch (script : string) :
  Regex.hasMatch cppRefPattern script = true <->
  exists id1 sp1 sp2 id2 rest,
    script = id1 +:+ sp1 +:+ "." +:+ sp2 +:+ id2 +:+ rest
    /\ isIdentifier id1 = true /\ QString.all isPatternSpace sp1 = true
    /\ QString.all isPatternSpace sp2 = true /\ isIdentifier id2 = true.
Proof.
  rewrite hasMatch_spec. split.
  - intros (p & rest & -> & (id1 & sp1 & sp2 & id2 & -> & H)%cppRefPattern_matches).
    exists id1, sp1, sp2, id2, rest. split; [| exact H].
    rewrite !append_assoc. reflexivity.
  - intros (id1 & sp1 & sp2 & id2 & rest & -> & H).
    exists (id1 +:+ sp1 +:+ "." +:+ sp2 +:+ id2), rest. split.
    + rewrite !append_assoc. reflexivity.
    + apply cppRefPattern_matches. exists id1, sp1, sp2, id2. auto.
Qed.

Example pattern_examples :
  Regex.hasMatch cppRefPattern "cppObj.interval" = true
  /\ Regex.hasMatch cppRefPattern "a .  b + 1" = true
  /\ Regex.hasMatch cppRefPattern "a.b.c" = true
  /\ Regex.hasMatch cppRefPattern "a.1" = false
  /\ Regex.hasMatch cppRefPattern "1 + a.b" = false
  /\ Regex.hasMatch cppRefPattern "Namespace::Value" = false.
Proof. repeat split; reflexivity. Qed.

(** ** Character classes *)

Ltac by_all_characters c :=
  destruct c as [[] [] [] [] [] [] [] []]; vm_compute; congruence.

Lemma identStart_identChar (c : ascii) : isIdentStart c = true -> isIdentChar c = true.
Proof. by_all_characters c. Qed.

Lemma identChar_notDot (c : ascii) : isIdentChar c = true -> notDot c = true.
Proof. by_all_characters c. Qed.

Lemma identChar_not_space (c : ascii) :
  isIdentChar c = true -> negb (QChar.isSpace c) = true.
Proof. by_all_characters c. Qed.

Lemma patternSpace_notDot (c : ascii) : isPatternSpace c = true -> notDot c = true.
Proof. by_all_characters c. Qed.

Lemma patternSpace_isSpace (c : ascii) : isPatternSpace c = true -> QChar.isSpace c = true.
Proof. by_all_characters c. Qed.

Lemma identifier_chars (s : string) :
  isIdentifier s = true -> QString.all isIdentChar s = true.
Proof.
  destruct s as [|c s]; simpl; [discriminate|].
  intros [Hc Hs]%andb_true_iff. now rewrite (identStart_identChar c Hc), Hs.
Qed.

Lemma identifier_notDot (s : string) :
  isIdentifier s = true -> QString.all notDot s = true.
Proof. intros H. apply (all_impl isIdentChar); [apply identChar_notDot | now apply identifier_chars]. Qed.

Lemma identifier_no_space (s : string) :
  isIdentifier s = true -> QString.all (fun c => negb (QChar.isSpace c)) s = true.
Proof.
  intros H. apply (all_impl isIdentChar); [apply identChar_not_space | now apply identifier_chars].
Qed.

(** An identifier with white space behind it is trimmed to the identifier. *)
Lemma trimmed_identifier_spaces (w sp : string) :
  isIdentifier w = true -> QString.all isPatternSpace sp = true ->
  QString.trimmed (w +:+ sp) = w.
Proof.
  intros Hw Hsp. destruct w as [|c w]; [discriminate|].
  apply trimmed_word_spaces.
  - now apply identifier_no_space.
  - apply (all_impl isPatternSpace); [apply patternSpace_isSpace | assumption].
Qed.

Lemma trimmed_identifier (w : string) : isIdentifier w = true -> QString.trimmed w = w.
Proof.
  intros Hw. rewrite <- (append_nil_r w) at 1. now apply trimmed_identifier_spaces.
Qed.

Lemma trimRight_word_app (w x : string) :
  QString.all (fun c => negb (QChar.isSpace c)) w = true ->
  QString.trimRight (w +:+ x) = w +:+ QString.trimRight x.
Proof.
  induction w as [|c w IH]; simpl; [reflexivity|].
  intros [Hc Hw]%andb_true_iff. apply negb_true_iff in Hc.
  rewrite (IH Hw), Hc. now destruct (w +:+ QString.trimRight x).
Qed.

(** White space, then an identifier, then anything: trimming keeps the
    identifier in front. *)
Lemma trimmed_spaces_identifier (sp w x : string) :
  QString.all isPatternSpace sp = true -> isIdentifier w = true ->
  QString.trimmed (sp +:+ w +:+ x) = w +:+ QString.trimRight x.
Proof.
  intros Hsp Hw. unfold QString.trimmed.
  rewrite trimLeft_spaces
    by (apply (all_impl isPatternSpace); [apply patternSpace_isSpace | assumption]).
  pose proof (identifier_no_space w Hw) as Hns.
  destruct w as [|c w]; [discriminate|].
  pose proof Hns as Hns'. simpl in Hns'. apply andb_true_iff in Hns' as [Hc _].
  apply negb_true_iff in Hc.
  change (String c w +:+ x) with (String c (w +:+ x)).
  rewrite trimLeft_no_space by assumption.
  change (String c (w +:+ x)) with (String c w +:+ x).
  now apply trimRight_word_app.
Qed.

Lemma split_app_no_sep (sep : ascii) (a b : string) :
  QString.all (fun c => negb (Ascii.eqb c sep)) a = true ->
  QString.split sep (a +:+ b) =
    match QString.split sep b with
    | seg :: rest => (a +:+ seg) :: rest
    | [] => [a]
    end.
Proof.
  induction a as [|x a IH]; simpl.
  - intros _. pose proof (split_not_nil sep b).
    now destruct (QString.split sep b).
  - intros [Hx Ha]%andb_true_iff. apply negb_true_iff in Hx. rewrite Hx.
    rewrite (IH Ha). now destruct (QString.split sep b).
Qed.

(** ** Candidate extraction *)

(** A text the pattern accepts has at least two parts; the first part,
    trimmed, is the leading identifier, and the second part, trimmed, begins
    with the second identifier. *)
Lemma matching_parts (script : string) :
  Regex.hasMatch cppRefPattern script = true ->
  exists id1 id2 part0 part1 parts more,
    QString.split "." script = part0 :: part1 :: parts
    /\ isIdentifier id1 = true /\ isIdentifier id2 = true
    /\ QString.trimmed part0 = id1
    /\ QString.trimmed part1 = id2 +:+ more.
Proof.
  intros (id1 & sp1 & sp2 & id2 & rest & -> & H1 & Hs1 & Hs2 & H2)%cppRefPattern_hasMatch.
  assert (QString.all notDot (id1 +:+ sp1) = true) as Hnd.
  { rewrite all_app, (identifier_notDot id1 H1). simpl.
    apply (all_impl isPatternSpace); [apply patternSpace_notDot | assumption]. }
  assert (QString.all notDot (sp2 +:+ id2) = true) as Hnd2.
  { rewrite all_app, (identifier_notDot id2 H2), andb_true_r.
    apply (all_impl isPatternSpace); [apply patternSpace_notDot | assumption]. }
  replace (id1 +:+ sp1 +:+ "." +:+ sp2 +:+ id2 +:+ rest)
    with ((id1 +:+ sp1) +:+ String "." ((sp2 +:+ id2) +:+ rest))
    by (rewrite !append_assoc; reflexivity).
  rewrite (split_app "." _ _ Hnd), (split_app_no_sep "." _ _ Hnd2).
  pose proof (split_not_nil "." rest) as Hne.
  destruct (QString.split "." rest) as [|seg parts]; [contradiction|].
  exists id1, id2, (id1 +:+ sp1), ((sp2 +:+ id2) +:+ seg), parts, (QString.trimRight seg).
  split; [reflexivity|]. split; [assumption|]. split; [assumption|]. split.
  - now apply trimmed_identifier_spaces.
  - rewrite append_assoc. now apply trimmed_spaces_identifier.
Qed.

Lemma matching_candidate (script : string) :
  Regex.hasMatch cppRefPattern script = true ->
  exists id1 id2 more,
    isIdentifier id1 = true /\ isIdentifier id2 = true
    /\ QString.trimmed (hd EmptyString (QString.split "." script)) = id1
    /\ parseCppObjectReference script = Some (id1, id2 +:+ more).
Proof.
  intros (id1 & id2 & part0 & part1 & parts & more & Hs & H1 & H2 & Ht0 & Ht1)%matching_parts.
  exists id1, id2, more. unfold parseCppObjectReference. rewrite Hs. simpl.
  rewrite Ht0, Ht1. auto.
Qed.

(** The chain [a.b.tail]: the candidate is [(a, b)] whatever [tail] is. *)
Lemma parse_chain (a b tail : string) :
  isIdentifier a = true -> isIdentifier b = true ->
  parseCppObjectReference (a +:+ "." +:+ b +:+ "." +:+ tail) = Some (a, b).
Proof.
  intros Ha Hb. unfold parseCppObjectReference.
  change ("." +:+ b +:+ "." +:+ tail) with (String "." (b +:+ String "." tail)).
  rewrite (split_app "." a _ (identifier_notDot a Ha)).
  rewrite (split_app "." b _ (identifier_notDot b Hb)).
  pose proof (split_not_nil "." tail). destruct (QString.split "." tail); [contradiction|].
  now rewrite !trimmed_identifier.
Qed.

(** The text [a.b] itself. *)
Lemma split_pair (a b : string) :
  isIdentifier a = true -> isIdentifier b = true ->
  QString.split "." (a +:+ "." +:+ b) = [a; b].
Proof.
  intros Ha Hb. change ("." +:+ b) with (String "." b).
  rewrite (split_app "." a _ (identifier_notDot a Ha)).
  now rewrite (split_no_sep "." b (identifier_notDot b Hb)).
Qed.

Lemma parse_pair (a b : string) :
  isIdentifier a = true -> isIdentifier b = true ->
  parseCppObjectReference (a +:+ "." +:+ b) = Some (a, b).
Proof.
  intros Ha Hb. unfold parseCppObjectReference. rewrite split_pair by assumption.
  now rewrite !trimmed_identifier.
Qed.

Lemma pair_hasMatch (a b : string) :
  isIdentifier a = true -> isIdentifier b = true ->
  Regex.hasMatch cppRefPattern (a +:+ "." +:+ b) = true.
Proof.
  intros Ha Hb. apply cppRefPattern_hasMatch. exists a, "", "", b, "".
  simpl. rewrite append_nil_r. auto.
Qed.

(** ** The walks end *)

Section Walks.

Context (st : Store).

Lemma parentScope_in_dom (e p : Element) : parentScope st e = Some p -> e ∈ dom st.
Proof.
  unfold parentScope. intros H. apply elem_of_dom.
  destruct (st !! e); [eauto | discriminate].
Qed.

(** The elements met so far on the way up are all different, and they all
    are in the store: the way up cannot be longer than the store is
    large. *)
Lemma rootDistance_within (Hacyclic : acyclic st) :
  forall (k : nat) (visited : gset Element) (e : Element),
    (forall v, v ∈ visited -> encloses st e v) ->
    visited ⊆ dom st ->
    size st <= k + size visited ->
    exists n, n <= k /\ rootDistance st e n.
Proof.
  induction k as [|k IH]; intros visited e Hvis Hdom Hsize;
    destruct (parentScope st e) as [p|] eqn:Hp;
    try (exists 0; split; [lia | now constructor]).
  - exfalso.
    assert (e ∉ visited) as Hfresh by (intros Hin; exact (Hacyclic e (Hvis e Hin))).
    assert ({[e]} ∪ visited ⊆ dom st) as Hsub.
    { apply union_subseteq. split; [| assumption].
      apply singleton_subseteq_l. eapply parentScope_in_dom; eauto. }
    apply subseteq_size in Hsub.
    rewrite size_union, size_singleton, size_dom in Hsub by set_solver. lia.
  - assert (e ∉ visited) as Hfresh by (intros Hin; exact (Hacyclic e (Hvis e Hin))).
    destruct (IH ({[e]} ∪ visited) p) as [n [Hn Hd]].
    + intros v [->%elem_of_singleton | Hv]%elem_of_union.
      * now apply tc_once.
      * eapply tc_r; [apply (Hvis v Hv) | exact Hp].
    + apply union_subseteq. split; [| assumption].
      apply singleton_subseteq_l. eapply parentScope_in_dom; eauto.
    + rewrite size_union, size_singleton by set_solver. lia.
    + exists (S n). split; [lia | now apply (rd_step st e p)].
Qed.

(** In a tree, every element is at most [size st] parent links away from
    an element with no parent scope. *)
Lemma rootDistance_bound (Hacyclic : acyclic st) (e : Element) :
  exists n, n <= size st /\ rootDistance st e n.
Proof.
  apply (rootDistance_within Hacyclic (size st) ∅ e); [set_solver | set_solver | lia].
Qed.

Lemma rootWalk_reaches (e : Element) (n : nat) :
  rootDistance st e n ->
  forall fuel, n <= fuel ->
    exists root, rootWalk fuel st e = Some root /\ parentScope st root = None.
Proof.
  induction 1 as [e Hp | e p n Hp _ IH]; intros fuel Hfuel.
  - exists e. split; [| assumption]. destruct fuel; simpl; now rewrite Hp.
  - destruct fuel as [|fuel]; [lia|]. simpl. rewrite Hp. apply IH. lia.
Qed.

Lemma scopeWalk_answers (objectId : string) (e : Element) (n : nat) :
  rootDistance st e n ->
  forall fuel, n <= fuel ->
    exists found, scopeWalk fuel st objectId (parentScope st e) = Some found.
Proof.
  induction 1 as [e Hp | e p n Hp _ IH]; intros fuel Hfuel.
  - rewrite Hp. exists false. now destruct fuel.
  - rewrite Hp. destruct fuel as [|fuel]; [lia|]. simpl.
    destruct (existsb _ _); [now exists true|]. apply IH. lia.
Qed.

Lemma rootWalk_total (Hacyclic : acyclic st) (fuel : nat) (e : Element) :
  size st <= fuel ->
  exists root, rootWalk fuel st e = Some root /\ parentScope st root = None.
Proof.
  intros Hfuel. destruct (rootDistance_bound Hacyclic e) as [n [Hn Hd]].
  apply (rootWalk_reaches e n Hd). lia.
Qed.

Lemma isCppRegisteredObject_total (Hacyclic : acyclic st) (fuel : nat)
    (objectId : string) (e : Element) :
  size st <= fuel ->
  exists found, isCppRegisteredObject fuel st objectId e = Some found.
Proof.
  intros Hfuel. destruct (rootDistance_bound Hacyclic e) as [n [Hn Hd]].
  apply (scopeWalk_answers objectId e n Hd). lia.
Qed.

(** *** What the scope walk answers *)

Lemma isRegisteredChild_exists (objectId : string) (s : Element) :
  existsb (isRegisteredChild st objectId) (childScopes st s) = true
  <-> declaresRegistered st objectId s.
Proof.
  rewrite existsb_exists. unfold declaresRegistered, isRegisteredChild.
  split; intros [child [Hin H]]; exists child.
  - apply andb_true_iff in H as [Hid Ht]. apply String.eqb_eq in Hid.
    rewrite list_elem_of_In. auto.
  - destruct H as [Hid Ht]. rewrite <- list_elem_of_In.
    split; [assumption|]. now rewrite Ht, andb_true_r, String.eqb_eq.
Qed.

Lemma scopeWalk_true (objectId : string) :
  forall fuel e,
    scopeWalk fuel st objectId (parentScope st e) = Some true ->
    exists s, encloses st s e /\ declaresRegistered st objectId s.
Proof.
  induction fuel as [|fuel IH]; intros e;
    destruct (parentScope st e) as [p|] eqn:Hp; simpl; try discriminate.
  destruct (existsb _ _) eqn:Hfound.
  - intros _. exists p. split; [now apply tc_once | now apply isRegisteredChild_exists].
  - intros [s [Hs Hd]]%IH. exists s. split; [| assumption].
    eapply tc_l; [exact Hp | exact Hs].
Qed.

Lemma encloses_parent (s e : Element) :
  encloses st s e ->
  exists p, parentScope st e = Some p /\ (s = p \/ encloses st s p).
Proof.
  unfold encloses. intros H. destruct H as [x y Hstep | x y z Hstep Htc].
  - exists y. split; [exact Hstep | now left].
  - exists y. split; [exact Hstep | now right].
Qed.

Lemma scopeWalk_false (objectId : string) :
  forall fuel e,
    scopeWalk fuel st objectId (parentScope st e) = Some false ->
    forall s, encloses st s e -> ~ declaresRegistered st objectId s.
Proof.
  induction fuel as [|fuel IH]; intros e Hwalk s Hs Hd;
    destruct (encloses_parent s e Hs) as [p [Hp Hsp]];
    rewrite Hp in Hwalk; simpl in Hwalk; [discriminate|].
  destruct (existsb _ _) eqn:Hfound; [discriminate|].
  destruct Hsp as [-> | Hsp].
  - apply isRegisteredChild_exists in Hd. congruence.
  - exact (IH p Hwalk s Hsp Hd).
Qed.

(** Where the search of the specification answers yes, so does the walk of
    the pass, on the same fuel. *)
Lemma nearestDeclarationWalk_true (objectId : string) :
  forall fuel scope,
    nearestDeclarationWalk fuel st objectId scope = Some true ->
    scopeWalk fuel st objectId scope = Some true.
Proof.
  induction fuel as [|fuel IH]; intros [s|]; simpl; try discriminate.
  destruct (find _ _) as [child|] eqn:Hfind.
  - intros [= Ht]. apply find_some in Hfind as [Hin Hid].
    assert (existsb (isRegisteredChild st objectId) (childScopes st s) = true) as ->; [|reflexivity].
    apply existsb_exists. exists child. split; [assumption|].
    unfold isRegisteredChild. now rewrite Hid, Ht.
  - intros H. destruct (existsb _ _); [reflexivity | now apply IH].
Qed.

End Walks.

(** ** Trees *)

Lemma parentsBelow_parentOf (st : Store) :
  parentsBelow st = true -> forall c p, parentOf st c p -> p < c.
Proof.
  unfold parentsBelow, parentOf, parentScope. intros Hall c p Hp.
  destruct (st !! c) as [n|] eqn:Hc; [| discriminate]. simpl in Hp.
  rewrite forallb_forall in Hall.
  specialize (Hall (c, n)). simpl in Hall. rewrite Hp in Hall.
  apply Nat.ltb_lt, Hall, list_elem_of_In, elem_of_map_to_list. exact Hc.
Qed.

(** A store whose parents all have smaller handles than their children is
    a tree. *)
Lemma parentsBelow_acyclic (st : Store) : parentsBelow st = true -> acyclic st.
Proof.
  intros Hall e He.
  assert (forall a b, tc (parentOf st) a b -> b < a) as Hlt.
  { induction 1 as [a b Hab | a b c Hab _ IH].
    - now apply (parentsBelow_parentOf st Hall).
    - pose proof (parentsBelow_parentOf st Hall a b Hab). lia. }
  specialize (Hlt e e He). lia.
Qed.

(** More fuel does not change an answer. *)
Lemma rootWalk_fuel (st : Store) (fuel fuel' : nat) (e root : Element) :
  rootWalk fuel st e = Some root -> fuel <= fuel' -> rootWalk fuel' st e = Some root.
Proof.
  revert fuel' e. induction fuel as [|fuel IH]; intros fuel' e.
  - simpl. destruct (parentScope st e) eqn:Hp; [discriminate|].
    intros H _. destruct fuel'; simpl; now rewrite Hp.
  - simpl. destruct (parentScope st e) as [p|] eqn:Hp.
    + intros H Hle. destruct fuel' as [|fuel']; [lia|]. simpl. rewrite Hp.
      apply IH; [assumption | lia].
    + intros H _. destruct fuel'; simpl; now rewrite Hp.
Qed.

Lemma scopeWalk_fuel (st : Store) (objectId : string) (fuel fuel' : nat)
    (scope : option Element) (found : bool) :
  scopeWalk fuel st objectId scope = Some found -> fuel <= fuel' ->
  scopeWalk fuel' st objectId scope = Some found.
Proof.
  revert fuel' scope. induction fuel as [|fuel IH]; intros fuel' [s|]; simpl;
    try discriminate; try (intros H _; now destruct fuel').
  intros H Hle. destruct fuel' as [|fuel']; [lia|]. simpl.
  destruct (existsb _ _); [assumption|]. apply IH; [assumption | lia].
Qed.

(** The walk up from an element of [cyclicStore] never ends. *)
Lemma cyclic_walk_never_ends (fuel : nat) :
  rootWalk fuel cyclicStore 0 = None /\ rootWalk fuel cyclicStore 1 = None.
Proof.
  induction fuel as [|fuel [IH0 IH1]]; [split; reflexivity|].
  split.
  - change (rootWalk (S fuel) cyclicStore 0) with (rootWalk fuel cyclicStore 1). exact IH1.
  - change (rootWalk (S fuel) cyclicStore 1) with (rootWalk fuel cyclicStore 0). exact IH0.
Qed.

(** ** The fix *)

Lemma arg_aliasName (objectId propertyName : string) :
  QString.arg "als_%1_%2" [objectId; propertyName] = aliasNameOf objectId propertyName.
Proof. unfold aliasNameOf. simpl. now rewrite append_nil_r. Qed.

Lemma arg_hint (aliasName objectId propertyName : string) :
  QString.arg "Add property alias: property alias %1: %2.%3"
    [aliasName; objectId; propertyName]
  = "Add property alias: property alias " +:+ aliasName +:+ ": " +:+ objectId
    +:+ "." +:+ propertyName.
Proof. simpl. now rewrite append_nil_r. Qed.

Lemma arg_insertion (aliasName objectId propertyName : string) :
  QString.arg (String newline "    property alias %1: %2.%3")
    [aliasName; objectId; propertyName]
  = String newline ("    property alias " +:+ aliasName +:+ ": " +:+ objectId
                    +:+ "." +:+ propertyName).
Proof. simpl. now rewrite append_nil_r. Qed.

Lemma emitCppBindingWarning_root (fuel : nat) (st : Store) (binding : Binding.t)
    (objectId propertyName : string) (root : Element) :
  getRootElement fuel st binding = Some root ->
  emitCppBindingWarning fuel st binding objectId propertyName
  = Some [warningOf (sourceLocation st root) binding objectId propertyName].
Proof.
  intros Hroot. unfold emitCppBindingWarning. rewrite Hroot.
  rewrite arg_aliasName, arg_hint, arg_insertion. reflexivity.
Qed.

Lemma emitCppBindingWarning_total (fuel : nat) (st : Store) (binding : Binding.t)
    (objectId propertyName : string) :
  acyclic st -> size st <= fuel ->
  exists root,
    getRootElement fuel st binding = Some root /\ parentScope st root = None
    /\ emitCppBindingWarning fuel st binding objectId propertyName
       = Some [warningOf (sourceLocation st root) binding objectId propertyName].
Proof.
  intros Hacyclic Hfuel.
  destruct (rootWalk_total st Hacyclic fuel (Binding.containingElement binding) Hfuel)
    as [root [Hroot Hp]].
  exists root. split; [exact Hroot|]. split; [exact Hp|].
  now apply emitCppBindingWarning_root.
Qed.

(** ** The enum exemption *)

Lemma enumTerms_contains (propertyName : string) :
  QString.contains propertyName "State" || QString.contains propertyName "Mode"
  || QString.contains propertyName "Type" || QString.contains propertyName "Policy" = true
  <-> exists term, In term enumTerms /\ occursIn term propertyName.
Proof.
  unfold occursIn. rewrite !orb_true_iff, !contains_spec. split.
  - intros [[[H | H] | H] | H];
      [exists "State" | exists "Mode" | exists "Type" | exists "Policy"];
      (split; [simpl; tauto | exact H]).
  - intros [term [Hin H]]. simpl in Hin.
    destruct Hin as [<- | [<- | [<- | [<- | []]]]]; tauto.
Qed.

(** [isEnumBinding] says yes for the texts with at least two parts whose
    second part, trimmed, holds one of the four words letter for letter, or
    which hold [::] somewhere. *)
Lemma isEnumBinding_spec (script : string) (element : Element) :
  isEnumBinding script element = true <->
  exists objectId propertyName,
    parseCppObjectReference script = Some (objectId, propertyName)
    /\ ((exists term, In term enumTerms /\ occursIn term propertyName)
        \/ occursIn "::" script).
Proof.
  unfold isEnumBinding.
  destruct (parseCppObjectReference script) as [[objectId propertyName]|].
  - rewrite orb_true_iff, enumTerms_contains, contains_spec. split.
    + intros H. exists objectId, propertyName. split; [reflexivity | exact H].
    + intros [o [p [[= <- <-] H]]]. exact H.
  - split; [discriminate | intros [o [p [H _]]]; discriminate].
Qed.

Lemma cppObjectReference_exempt (fuel : nat) (st : Store) (binding : Binding.t)
    (element : Element) (script objectId propertyName : string) :
  isEnumBinding script element = true ->
  cppObjectReference fuel st binding element script objectId propertyName = Some [].
Proof. intros H. unfold cppObjectReference. now rewrite H. Qed.

Lemma cppObjectReference_flag (fuel : nat) (st : Store) (binding : Binding.t)
    (element : Element) (script objectId propertyName : string) :
  isEnumBinding script element = false ->
  cppObjectReference fuel st binding element script objectId propertyName
  = emitCppBindingWarning fuel st binding objectId propertyName.
Proof. intros H. unfold cppObjectReference. now rewrite H. Qed.

(** ** The bindings of an element, one after the other *)

Lemma checkBinding_not_object (fuel : nat) (st : Store) (element : Element)
    (binding : Binding.t) :
  isCppObjectBinding fuel st (Binding.expressionText binding) element = Some false ->
  checkBinding fuel st element binding = Some [].
Proof. intros H. unfold checkBinding. now rewrite H. Qed.

Lemma isCppObjectBinding_no_match (fuel : nat) (st : Store) (script : string)
    (element : Element) :
  Regex.hasMatch cppRefPattern script = false ->
  isCppObjectBinding fuel st script element = Some false.
Proof. intros H. unfold isCppObjectBinding. now rewrite H. Qed.

Lemma isCppObjectBinding_match (fuel : nat) (st : Store) (script : string)
    (element : Element) :
  Regex.hasMatch cppRefPattern script = true ->
  isCppObjectBinding fuel st script element
  = isCppRegisteredObject fuel st
      (QString.trimmed (hd EmptyString (QString.split "." script))) element.
Proof. intros H. unfold isCppObjectBinding. now rewrite H. Qed.

Lemma isCppObjectBinding_total (fuel : nat) (st : Store) (script : string)
    (element : Element) :
  acyclic st -> size st <= fuel ->
  exists isObject, isCppObjectBinding fuel st script element = Some isObject.
Proof.
  intros Hacyclic Hfuel. unfold isCppObjectBinding.
  destruct (Regex.hasMatch cppRefPattern script); simpl; [| now exists false].
  now apply isCppRegisteredObject_total.
Qed.




Lemma checkBindings_silent (fuel : nat) (st : Store) (element : Element)
    (bindings : list Binding.t) :
  (forall binding, In binding bindings -> checkBinding fuel st element binding = Some []) ->
  checkBindings fuel st element bindings = Some [].
Proof.
  induction bindings as [|binding rest IH]; simpl; [reflexivity|].
  intros H. rewrite (H binding) by now left. simpl.
  rewrite IH by (intros b Hb; apply H; now right). reflexivity.
Qed.

(** * The claims *)

(** ** C1: a reference to a registered object is flagged once *)


(** For the text [id.prop], [isCppObjectBinding] is the scope walk for
    [id]. *)
Lemma isCppObjectBinding_pair (fuel : nat) (st : Store) (element : Element)
    (objectId propertyName : string) :
  isIdentifier objectId = true -> isIdentifier propertyName = true ->
  isCppObjectBinding fuel st (objectId +:+ "." +:+ propertyName) element
  = isCppRegisteredObject fuel st objectId element.
Proof.
  intros Hid Hprop.
  rewrite isCppObjectBinding_match by now apply pair_hasMatch.
  rewrite split_pair by assumption. simpl hd.
  now rewrite trimmed_identifier.
Qed.





(** The run of the specification's example, in full. *)
Example run_example :
  run 3 (siblingStore (SourceLocation.mk 0 120) "cppObj.interval") 2
  = Some [ mkWarning
             "Property binding to C++ object detected. Consider using property alias instead."
             qmlsaCppBindingAntiPattern (SourceLocation.mk 60 15)
             (FixSuggestion.mk
                "Add property alias: property alias als_cppObj_interval: cppObj.interval"
                [ Insertion (SourceLocation.mk 119 120)
                    (String newline "    property alias als_cppObj_interval: cppObj.interval");
                  Replacement (SourceLocation.mk 60 15) "als_cppObj_interval" ]) ].
Proof. reflexivity. Qed.

(** ** C2: which declarations the scope walk sees *)

(** C2, as claimed, fails on [shadowStore]: the scope next to element 4
    declares [x] as a plain [Item], the search of the specification answers
    no, and yet [isCppRegisteredObject] answers yes, from the [QTimer]
    declared [x] one scope farther out; the binding [x.y] of element 4 is an
    object binding and a warning is emitted for it. *)
Lemma shadowed_reference_is_flagged :
  parentScope shadowStore 4 = Some 2
  /\ 3 ∈ childScopes shadowStore 2
  /\ id shadowStore 3 = "x"
  /\ isCppRegisteredType (baseTypeName shadowStore 3) = false
  /\ isNativeObjectReference 5 shadowStore "x" 4 = Some false
  /\ isCppRegisteredObject 5 shadowStore "x" 4 = Some true
  /\ isCppObjectBinding 5 shadowStore "x.y" 4 = Some true
  /\ (exists w, cppObjectReference 5 shadowStore shadowBinding 4 "x.y" "x" "y" = Some [w])
  /\ (exists w, run 5 shadowStore 4 = Some [w]).
Proof.
  split; [reflexivity|]. split; [apply list_elem_of_In; vm_compute; tauto|].
  repeat (split; [reflexivity|]).
  split; eexists; reflexivity.
Qed.

Lemma isCppRegisteredObject_true_iff (fuel : nat) (st : Store) (objectId : string)
    (element : Element) :
  acyclic st -> size st <= fuel ->
  (isCppRegisteredObject fuel st objectId element = Some true
   <-> exists s, encloses st s element /\ declaresRegistered st objectId s).
Proof.
  intros Hacyclic Hfuel. split; [apply scopeWalk_true|].
  intros [s [Hs Hd]].
  destruct (isCppRegisteredObject_total st Hacyclic fuel objectId element Hfuel)
    as [[|] Hfound]; [assumption|].
  destruct (scopeWalk_false st objectId fuel element Hfound s Hs Hd).
Qed.

Lemma isCppRegisteredObject_false_iff (fuel : nat) (st : Store) (objectId : string)
    (element : Element) :
  acyclic st -> size st <= fuel ->
  (isCppRegisteredObject fuel st objectId element = Some false
   <-> ~ exists s, encloses st s element /\ declaresRegistered st objectId s).
Proof.
  intros Hacyclic Hfuel. split.
  - intros Hfalse [s [Hs Hd]].
    exact (scopeWalk_false st objectId fuel element Hfalse s Hs Hd).
  - intros Hnone.
    destruct (isCppRegisteredObject_total st Hacyclic fuel objectId element Hfuel)
      as [[|] Hfound]; [| assumption].
    destruct Hnone. now apply (scopeWalk_true st objectId fuel).
Qed.

(** C2 (amended). In a tree, [isCppRegisteredObject] answers yes exactly
    when one of the scopes around the element, near or far, has a child
    declared with this id and a registered base type, and no exactly when
    none has: a plain declaration of the id in a nearer scope hides nothing.
    Where the answer is no, a binding [x.y] of the element is no object
    binding and its check emits no warning. *)
Theorem registered_object_in_any_enclosing_scope
    (fuel : nat) (st : Store) (x : string) (element : Element) :
  acyclic st -> size st <= fuel ->
  (isCppRegisteredObject fuel st x element = Some true
   <-> exists s, encloses st s element /\ declaresRegistered st x s)
  /\ (isCppRegisteredObject fuel st x element = Some false
      <-> ~ exists s, encloses st s element /\ declaresRegistered st x s)
  /\ (isCppRegisteredObject fuel st x element = Some false ->
      forall binding y,
        isIdentifier x = true -> isIdentifier y = true ->
        Binding.expressionText binding = x +:+ "." +:+ y ->
        isCppObjectBinding fuel st (x +:+ "." +:+ y) element = Some false
        /\ checkBinding fuel st element binding = Some []).
Proof.
  intros Hacyclic Hfuel.
  split; [now apply isCppRegisteredObject_true_iff|].
  split; [now apply isCppRegisteredObject_false_iff|].
  intros Hfalse binding y Hx Hy Htext.
  assert (isCppObjectBinding fuel st (x +:+ "." +:+ y) element = Some false) as Hgate
      by now rewrite isCppObjectBinding_pair.
  split; [exact Hgate|].
  apply checkBinding_not_object. now rewrite Htext.
Qed.

Lemma registered_object_in_any_enclosing_scope_witness :
  (~ exists s, encloses plainStore s 4 /\ declaresRegistered plainStore "x" s)
  /\ isCppObjectBinding 5 plainStore "x.y" 4 = Some false
  /\ checkBinding 5 plainStore 4 shadowBinding = Some [].
Proof.
  destruct (registered_object_in_any_enclosing_scope 5 plainStore "x" 4)
    as [_ [Hfalse Hsilent]].
  - apply parentsBelow_acyclic. reflexivity.
  - apply Nat.leb_le. reflexivity.
  - split.
    + apply Hfalse. reflexivity.
    + apply (Hsilent eq_refl shadowBinding "y"); reflexivity.
Defined.

(** ** C3: the enum words are matched letter for letter *)

(** C3, as claimed, fails on [obj.STATE]: [isEnumBinding] exempts
    [obj.currentState] and does not exempt [obj.STATE], for which
    [cppObjectReference] emits a warning. *)
Lemma upper_case_word_not_exempted :
  isEnumBinding "obj.currentState" 2 = true
  /\ isEnumBinding "obj.STATE" 2 = false
  /\ cppObjectReference 3 (siblingStore (SourceLocation.mk 0 120) "cppObj.currentState")
       (siblingBinding "cppObj.currentState") 2 "cppObj.currentState"
       "cppObj" "currentState" = Some []
  /\ (exists w,
        cppObjectReference 3 (siblingStore (SourceLocation.mk 0 120) "cppObj.STATE")
          (siblingBinding "cppObj.STATE") 2 "cppObj.STATE" "cppObj" "STATE" = Some [w]).
Proof. repeat (split; [reflexivity|]). eexists. reflexivity. Qed.

(** C3 (amended). The exemption looks for the words [State], [Mode], [Type]
    and [Policy] in the property name, the trimmed second part of the text,
    letter for letter with upper and lower case kept apart: [isEnumBinding]
    answers yes exactly for a text with a candidate whose property name
    holds one of the words as written, or which holds [::].  When it answers
    yes, [cppObjectReference] emits nothing; when it answers no, the warning
    is emitted. *)
Theorem enum_exemption_is_case_sensitive (script : string) (element : Element) :
  (isEnumBinding script element = true
   <-> exists objectId propertyName,
         parseCppObjectReference script = Some (objectId, propertyName)
         /\ ((exists term, In term enumTerms /\ occursIn term propertyName)
             \/ occursIn "::" script))
  /\ (isEnumBinding script element = true ->
      forall fuel st binding objectId propertyName,
        cppObjectReference fuel st binding element script objectId propertyName = Some [])
  /\ (isEnumBinding script element = false ->
      forall fuel st binding objectId propertyName,
        cppObjectReference fuel st binding element script objectId propertyName
        = emitCppBindingWarning fuel st binding objectId propertyName).
Proof.
  split; [apply isEnumBinding_spec|]. split.
  - intros H fuel st binding objectId propertyName. now apply cppObjectReference_exempt.
  - intros H fuel st binding objectId propertyName. now apply cppObjectReference_flag.
Qed.

Lemma enum_exemption_is_case_sensitive_witness :
  isEnumBinding "obj.currentState" 2 = true
  /\ cppObjectReference 3 (siblingStore (SourceLocation.mk 0 120) "obj.currentState")
       (siblingBinding "obj.currentState") 2 "obj.currentState" "obj" "currentState"
     = Some [].
Proof.
  destruct (enum_exemption_is_case_sensitive "obj.currentState" 2) as [Hiff [Hyes _]].
  assert (isEnumBinding "obj.currentState" 2 = true) as H.
  { apply Hiff. exists "obj", "currentState". split; [reflexivity|].
    left. exists "State". split; [simpl; tauto|].
    exists "current", "". reflexivity. }
  split; [exact H | now apply Hyes].
Defined.

(** ** C4: the qualified access *)

(** C4, as claimed, fails on [Namespace::Value]: the text holds [::], it has
    no dot and so no candidate, and [isEnumBinding] answers no. *)
Lemma qualified_name_without_candidate :
  QString.contains "Namespace::Value" "::" = true
  /\ parseCppObjectReference "Namespace::Value" = None
  /\ isEnumBinding "Namespace::Value" 2 = false.
Proof. repeat split; reflexivity. Qed.

(** C4 (amended). For a text that holds [::]: whenever it has a candidate,
    that is at least two parts around a dot, and so whenever the pattern
    accepts it, [isEnumBinding] answers yes whatever the property name is
    and [cppObjectReference] emits nothing; and, candidate or not, the check
    of a binding with this text emits no warning. *)
Theorem qualified_access_is_exempt
    (fuel : nat) (st : Store) (element : Element) (binding : Binding.t)
    (script : string) :
  acyclic st -> size st <= fuel ->
  QString.contains script "::" = true ->
  Binding.expressionText binding = script ->
  (forall objectId propertyName,
     parseCppObjectReference script = Some (objectId, propertyName) ->
     isEnumBinding script element = true
     /\ cppObjectReference fuel st binding element script objectId propertyName = Some [])
  /\ (Regex.hasMatch cppRefPattern script = true -> isEnumBinding script element = true)
  /\ checkBinding fuel st element binding = Some [].
Proof.
  intros Hacyclic Hfuel Hqual Htext.
  assert (forall objectId propertyName,
            parseCppObjectReference script = Some (objectId, propertyName) ->
            isEnumBinding script element = true) as Hexempt.
  { intros objectId propertyName Hparse. unfold isEnumBinding.
    rewrite Hparse, Hqual. now rewrite !orb_true_r. }
  split; [| split].
  - intros objectId propertyName Hparse.
    pose proof (Hexempt _ _ Hparse) as H. split; [exact H|].
    now apply cppObjectReference_exempt.
  - intros (id1 & id2 & more & _ & _ & _ & Hparse)%matching_candidate.
    exact (Hexempt _ _ Hparse).
  - unfold checkBinding. rewrite Htext.
    destruct (isCppObjectBinding_total fuel st script element Hacyclic Hfuel)
      as [isObject ->]. simpl.
    destruct isObject; [| reflexivity].
    destruct (parseCppObjectReference script) as [[objectId propertyName]|] eqn:Hparse;
      [| reflexivity].
    apply cppObjectReference_exempt. exact (Hexempt _ _ eq_refl).
Qed.

Lemma qualified_access_is_exempt_witness :
  isEnumBinding "cppObj.interval == Timer::Fast" 2 = true
  /\ checkBinding 3 (siblingStore (SourceLocation.mk 0 120) "cppObj.interval == Timer::Fast") 2
       (siblingBinding "cppObj.interval == Timer::Fast") = Some [].
Proof.
  destruct (qualified_access_is_exempt 3
              (siblingStore (SourceLocation.mk 0 120) "cppObj.interval == Timer::Fast") 2
              (siblingBinding "cppObj.interval == Timer::Fast")
              "cppObj.interval == Timer::Fast") as [_ [Hmatch Hsilent]].
  - apply parentsBelow_acyclic. reflexivity.
  - apply Nat.leb_le. reflexivity.
  - reflexivity.
  - reflexivity.
  - split; [apply Hmatch; reflexivity | exact Hsilent].
Defined.
(** ** C5: candidate extraction *)

(** C5, as claimed, fails on a text that begins with white space: the
    pattern of the specification accepts the text [cppObj.interval] with a
    blank in front, the pattern of the pass does not; so the text is no
    object binding and gets no warning, although [cppObj] is a registered
    object there and the same text without the blank is flagged. *)
Lemma leading_space_is_not_matched :
  Regex.hasMatch specRefPattern " cppObj.interval" = true
  /\ Regex.hasMatch cppRefPattern " cppObj.interval" = false
  /\ isCppRegisteredObject 3 (siblingStore (SourceLocation.mk 0 120) " cppObj.interval")
       "cppObj" 2 = Some true
  /\ isCppObjectBinding 3 (siblingStore (SourceLocation.mk 0 120) " cppObj.interval")
       " cppObj.interval" 2 = Some false
  /\ run 3 (siblingStore (SourceLocation.mk 0 120) " cppObj.interval") 2 = Some []
  /\ isCppObjectBinding 3 (siblingStore (SourceLocation.mk 0 120) "cppObj.interval")
       "cppObj.interval" 2 = Some true
  /\ (exists w, run 3 (siblingStore (SourceLocation.mk 0 120) "cppObj.interval") 2
                 = Some [w]).
Proof. repeat (split; [reflexivity|]). eexists. reflexivity. Qed.

(** C5 (amended). The pattern is: identifier, optional white space, dot,
    optional white space, identifier, anchored at the start of the text,
    with nothing, white space included, before the first identifier.  A
    text it accepts has at least two parts around dots, and the candidate is
    made of the first two, trimmed: the object id is the leading identifier
    and the property name begins with the second one; of [a.b.tail] the
    candidate is [(a, b)].  A text it does not accept is no candidate and
    the check of its binding emits nothing. *)
Theorem candidate_is_the_first_two_parts (script : string) :
  (Regex.hasMatch cppRefPattern script = true
   <-> exists id1 sp1 sp2 id2 rest,
         script = id1 +:+ sp1 +:+ "." +:+ sp2 +:+ id2 +:+ rest
         /\ isIdentifier id1 = true /\ QString.all isPatternSpace sp1 = true
         /\ QString.all isPatternSpace sp2 = true /\ isIdentifier id2 = true)
  /\ (Regex.hasMatch cppRefPattern script = true ->
      exists id1 id2 part0 part1 parts more,
        QString.split "." script = part0 :: part1 :: parts
        /\ parseCppObjectReference script
           = Some (QString.trimmed part0, QString.trimmed part1)
        /\ isIdentifier id1 = true /\ isIdentifier id2 = true
        /\ QString.trimmed part0 = id1
        /\ QString.trimmed part1 = id2 +:+ more)
  /\ (forall a b tail,
        isIdentifier a = true -> isIdentifier b = true ->
        script = a +:+ "." +:+ b +:+ "." +:+ tail ->
        Regex.hasMatch cppRefPattern script = true
        /\ parseCppObjectReference script = Some (a, b))
  /\ (Regex.hasMatch cppRefPattern script = false ->
      forall fuel st element binding,
        Binding.expressionText binding = script ->
        isCppObjectBinding fuel st script element = Some false
        /\ checkBinding fuel st element binding = Some []).
Proof.
  split; [apply cppRefPattern_hasMatch|]. split; [| split].
  - intros (id1 & id2 & part0 & part1 & parts & more & Hs & H1 & H2 & Ht0 & Ht1)%matching_parts.
    exists id1, id2, part0, part1, parts, more.
    split; [exact Hs|]. split; [| auto].
    unfold parseCppObjectReference. now rewrite Hs.
  - intros a b tail Ha Hb ->. split; [| now apply parse_chain].
    apply cppRefPattern_hasMatch. exists a, "", "", b, ("." +:+ tail). auto.
  - intros Hno fuel st element binding Htext.
    pose proof (isCppObjectBinding_no_match fuel st script element Hno) as Hgate.
    split; [exact Hgate|]. apply checkBinding_not_object. now rewrite Htext.
Qed.

Lemma candidate_is_the_first_two_parts_witness :
  parseCppObjectReference "a.b.c" = Some ("a", "b")
  /\ checkBinding 3 (siblingStore (SourceLocation.mk 0 120) "42") 2 (siblingBinding "42")
     = Some [].
Proof.
  split.
  - destruct (candidate_is_the_first_two_parts "a.b.c") as [_ [_ [Hchain _]]].
    apply (Hchain "a" "b" "c"); reflexivity.
  - destruct (candidate_is_the_first_two_parts "42") as [_ [_ [_ Hno]]].
    apply (Hno eq_refl 3 (siblingStore (SourceLocation.mk 0 120) "42") 2 (siblingBinding "42")).
    reflexivity.
Defined.

(** ** C6: the text of the fix *)

(** C6, as claimed, fails on the specification's own example: the text
    inserted for [cppObj.interval] is a new line, four blanks and
    [property alias als_cppObj_interval: cppObj.interval], which is not the
    new line followed by [alias als_cppObj_interval: cppObj.interval]. *)
Lemma insertion_text_is_a_property_alias :
  exists w location,
    emitCppBindingWarning 3 (siblingStore (SourceLocation.mk 0 120) "cppObj.interval")
      (siblingBinding "cppObj.interval") "cppObj" "interval" = Some [w]
    /\ insertionOf (fixSuggestion w)
       = Some (location,
               String newline "    property alias als_cppObj_interval: cppObj.interval")
    /\ specInsertionText "als_cppObj_interval" "cppObj" "interval"
       = String newline "alias als_cppObj_interval: cppObj.interval"
    /\ String newline "    property alias als_cppObj_interval: cppObj.interval"
       <> specInsertionText "als_cppObj_interval" "cppObj" "interval".
Proof.
  eexists. eexists. split; [reflexivity|]. split; [reflexivity|].
  split; [reflexivity | discriminate].
Qed.

(** C6 (amended). For a reference [(objectId, propertyName)], in a tree,
    [emitCppBindingWarning] emits one warning at the binding; the alias name
    is [als_<objectId>_<propertyName>]; the fix has two edits, first the
    insertion of a new line, four blanks and
    [property alias <aliasName>: <objectId>.<propertyName>], then the
    replacement of the whole span of the binding by the alias name; the hint
    is [Add property alias: ] followed by the same declaration. *)
Theorem fix_texts
    (fuel : nat) (st : Store) (binding : Binding.t) (objectId propertyName : string) :
  acyclic st -> size st <= fuel ->
  exists w insertLocation,
    emitCppBindingWarning fuel st binding objectId propertyName = Some [w]
    /\ message w = warningMessage
    /\ category w = qmlsaCppBindingAntiPattern
    /\ location w = Binding.sourceLocation binding
    /\ FixSuggestion.hint (fixSuggestion w)
       = "Add property alias: property alias "
         +:+ ("als_" +:+ objectId +:+ "_" +:+ propertyName)
         +:+ ": " +:+ objectId +:+ "." +:+ propertyName
    /\ FixSuggestion.edits (fixSuggestion w)
       = [ Insertion insertLocation
             (String newline
                ("    property alias "
                 +:+ ("als_" +:+ objectId +:+ "_" +:+ propertyName)
                 +:+ ": " +:+ objectId +:+ "." +:+ propertyName));
           Replacement (Binding.sourceLocation binding)
             ("als_" +:+ objectId +:+ "_" +:+ propertyName) ].
Proof.
  intros Hacyclic Hfuel.
  destruct (emitCppBindingWarning_total fuel st binding objectId propertyName
              Hacyclic Hfuel) as [root [Hroot [_ Hemit]]].
  exists (warningOf (sourceLocation st root) binding objectId propertyName),
    (insertLocationOf (sourceLocation st root)).
  repeat split; assumption || reflexivity.
Qed.

Lemma fix_texts_witness :
  exists w insertLocation,
    emitCppBindingWarning 3 (siblingStore (SourceLocation.mk 0 120) "cppObj.interval")
      (siblingBinding "cppObj.interval") "cppObj" "interval" = Some [w]
    /\ message w = warningMessage
    /\ category w = qmlsaCppBindingAntiPattern
    /\ location w = SourceLocation.mk 60 15
    /\ FixSuggestion.hint (fixSuggestion w)
       = "Add property alias: property alias als_cppObj_interval: cppObj.interval"
    /\ FixSuggestion.edits (fixSuggestion w)
       = [ Insertion insertLocation
             (String newline "    property alias als_cppObj_interval: cppObj.interval");
           Replacement (SourceLocation.mk 60 15) "als_cppObj_interval" ].
Proof.
  apply (fix_texts 3 (siblingStore (SourceLocation.mk 0 120) "cppObj.interval")
           (siblingBinding "cppObj.interval") "cppObj" "interval").
  - apply parentsBelow_acyclic. reflexivity.
  - apply Nat.leb_le. reflexivity.
Defined.

(** ** C7: where the alias is inserted *)

(** C7, as claimed, fails on a root with an empty source span: for the root
    at offset 5 with length 0 the insertion is placed at offset 4, before
    the root begins, and for the root at offset 0 with length 0 the offset
    wraps around to [2^32 - 1].  Nothing guards the case: the warning is
    emitted with this insertion. *)
Lemma empty_root_span_is_not_guarded :
  (exists w text,
     sourceLocation (siblingStore (SourceLocation.mk 5 0) "cppObj.interval") 0
     = SourceLocation.mk 5 0
     /\ getRootElement 3 (siblingStore (SourceLocation.mk 5 0) "cppObj.interval")
          (siblingBinding "cppObj.interval") = Some 0
     /\ emitCppBindingWarning 3 (siblingStore (SourceLocation.mk 5 0) "cppObj.interval")
          (siblingBinding "cppObj.interval") "cppObj" "interval" = Some [w]
     /\ insertionOf (fixSuggestion w) = Some (SourceLocation.mk 4 0, text)
     /\ (4 < 5)%Z)
  /\ (exists w text,
        sourceLocation (siblingStore (SourceLocation.mk 0 0) "cppObj.interval") 0
        = SourceLocation.mk 0 0
        /\ emitCppBindingWarning 3 (siblingStore (SourceLocation.mk 0 0) "cppObj.interval")
             (siblingBinding "cppObj.interval") "cppObj" "interval" = Some [w]
        /\ insertionOf (fixSuggestion w) = Some (SourceLocation.mk 4294967295 0, text)
        /\ (4294967295 <> 0 + 0 - 1)%Z).
Proof.
  split.
  - eexists. eexists. repeat (split; [reflexivity|]). lia.
  - eexists. eexists. repeat (split; [reflexivity|]). lia.
Qed.

Lemma quint32_small (z : Z) : (0 <= z < 2 ^ 32)%Z -> SourceLocation.quint32 z = z.
Proof. intros H. unfold SourceLocation.quint32. now apply Z.mod_small. Qed.

(** C7 (amended). In a tree, every warning carries exactly one insertion;
    its offset is [offset + length - 1] of the root element's source span,
    taken once, in [quint32] arithmetic.  When the span of the root is not
    empty and ends within the [quint32] range, this is the position of the
    last character of the root, which is not before the start of the root.
    An empty span is not guarded. *)
Theorem insertion_offset_is_root_end
    (fuel : nat) (st : Store) (binding : Binding.t) (objectId propertyName : string) :
  acyclic st -> size st <= fuel ->
  exists root w insertLocation text replaced newText,
    getRootElement fuel st binding = Some root
    /\ parentScope st root = None
    /\ emitCppBindingWarning fuel st binding objectId propertyName = Some [w]
    /\ FixSuggestion.edits (fixSuggestion w)
       = [Insertion insertLocation text; Replacement replaced newText]
    /\ SourceLocation.offset insertLocation
       = SourceLocation.quint32
           (SourceLocation.offset (sourceLocation st root)
            + SourceLocation.length (sourceLocation st root) - 1)%Z
    /\ ((0 <= SourceLocation.offset (sourceLocation st root))%Z ->
        (1 <= SourceLocation.length (sourceLocation st root))%Z ->
        (SourceLocation.offset (sourceLocation st root)
         + SourceLocation.length (sourceLocation st root) <= 2 ^ 32)%Z ->
        SourceLocation.offset insertLocation
        = (SourceLocation.offset (sourceLocation st root)
           + SourceLocation.length (sourceLocation st root) - 1)%Z
        /\ (SourceLocation.offset (sourceLocation st root)
            <= SourceLocation.offset insertLocation)%Z).
Proof.
  intros Hacyclic Hfuel.
  destruct (emitCppBindingWarning_total fuel st binding objectId propertyName
              Hacyclic Hfuel) as [root [Hroot [Hparent Hemit]]].
  exists root, (warningOf (sourceLocation st root) binding objectId propertyName),
    (insertLocationOf (sourceLocation st root)).
  eexists. eexists. eexists.
  split; [exact Hroot|]. split; [exact Hparent|]. split; [exact Hemit|].
  split; [reflexivity|]. split; [reflexivity|].
  intros Hoffset Hlength Hend. simpl.
  rewrite quint32_small by lia. lia.
Qed.

Lemma insertion_offset_is_root_end_witness :
  exists root w insertLocation text replaced newText,
    getRootElement 3 (siblingStore (SourceLocation.mk 0 120) "cppObj.interval")
      (siblingBinding "cppObj.interval") = Some root
    /\ emitCppBindingWarning 3 (siblingStore (SourceLocation.mk 0 120) "cppObj.interval")
         (siblingBinding "cppObj.interval") "cppObj" "interval" = Some [w]
    /\ FixSuggestion.edits (fixSuggestion w)
       = [Insertion insertLocation text; Replacement replaced newText]
    /\ SourceLocation.offset insertLocation = 119%Z
    /\ (0 <= SourceLocation.offset insertLocation)%Z.
Proof.
  destruct (insertion_offset_is_root_end 3
              (siblingStore (SourceLocation.mk 0 120) "cppObj.interval")
              (siblingBinding "cppObj.interval") "cppObj" "interval")
    as (root & w & insertLocation & text & replaced & newText
        & Hroot & Hparent & Hemit & Hedits & _ & Hinside).
  - apply parentsBelow_acyclic. reflexivity.
  - apply Nat.leb_le. reflexivity.
  - exists root, w, insertLocation, text, replaced, newText.
    split; [exact Hroot|]. split; [exact Hemit|]. split; [exact Hedits|].
    injection Hroot as <-.
    destruct Hinside as [Heq Hle]; [vm_compute; discriminate .. |].
    split; [exact Heq | exact Hle].
Defined.

(** ** C8: the walks end *)

(** C8. In a tree (no element among its own enclosing scopes) and with fuel
    for as many turns as the tree has elements, the search for the root
    ends, on an element with no parent scope, and the scope walk ends with
    an answer for every id and every element; more fuel changes neither
    result. *)
Theorem walks_terminate_in_a_tree (fuel : nat) (st : Store) :
  acyclic st -> size st <= fuel ->
  (forall binding,
     exists root,
       getRootElement fuel st binding = Some root /\ parentScope st root = None
       /\ forall fuel', fuel <= fuel' -> getRootElement fuel' st binding = Some root)
  /\ (forall objectId element,
        exists found,
          isCppRegisteredObject fuel st objectId element = Some found
          /\ forall fuel', fuel <= fuel' ->
               isCppRegisteredObject fuel' st objectId element = Some found).
Proof.
  intros Hacyclic Hfuel. split.
  - intros binding.
    destruct (rootWalk_total st Hacyclic fuel (Binding.containingElement binding) Hfuel)
      as [root [Hroot Hparent]].
    exists root. split; [exact Hroot|]. split; [exact Hparent|].
    intros fuel' Hle. now apply (rootWalk_fuel st fuel).
  - intros objectId element.
    destruct (isCppRegisteredObject_total st Hacyclic fuel objectId element Hfuel)
      as [found Hfound].
    exists found. split; [exact Hfound|].
    intros fuel' Hle. now apply (scopeWalk_fuel st objectId fuel).
Qed.

Lemma walks_terminate_in_a_tree_witness :
  (exists root,
     getRootElement 5 shadowStore shadowBinding = Some root
     /\ parentScope shadowStore root = None)
  /\ (exists found, isCppRegisteredObject 5 shadowStore "x" 4 = Some found).
Proof.
  destruct (walks_terminate_in_a_tree 5 shadowStore) as [Hroot Hscope].
  - apply parentsBelow_acyclic. reflexivity.
  - apply Nat.leb_le. reflexivity.
  - split.
    + destruct (Hroot shadowBinding) as [root [H1 [H2 _]]]. now exists root.
    + destruct (Hscope "x" 4) as [found [H _]]. now exists found.
Defined.

(** ** C9: the list of types adds nothing to the prefix test *)

(** C9. [isCppRegisteredType] is the test for a leading [Q]: every name of
    [cppTypes] begins with [Q], so the look-up in the list never says yes
    where the prefix test says no. *)
Theorem isCppRegisteredType_is_the_prefix_test :
  Forall (fun name => QString.startsWith name "Q" = true) cppTypes
  /\ (forall typeName, isCppRegisteredType typeName = QString.startsWith typeName "Q")
  /\ (forall typeName,
        isCppRegisteredType typeName = true <-> exists rest, typeName = String "Q" rest).
Proof.
  assert (forall typeName,
            QStringList_contains cppTypes typeName = true ->
            QString.startsWith typeName "Q" = true) as Hlist.
  { intros typeName [name [Hin Heq]]%existsb_exists.
    apply String.eqb_eq in Heq as ->.
    simpl in Hin. repeat (destruct Hin as [<- | Hin]; [reflexivity|]). destruct Hin. }
  assert (forall typeName, isCppRegisteredType typeName = QString.startsWith typeName "Q")
    as Heq.
  { intros typeName. unfold isCppRegisteredType.
    destruct (QString.startsWith typeName "Q") eqn:Hq; [reflexivity|].
    rewrite orb_false_l.
    destruct (QStringList_contains cppTypes typeName) eqn:Hc; [| reflexivity].
    rewrite (Hlist typeName Hc) in Hq. discriminate. }
  split; [repeat constructor|]. split; [exact Heq|].
  intros typeName. rewrite Heq. destruct typeName as [|c rest]; simpl.
  - split; [discriminate | intros [rest H]; discriminate].
  - rewrite Ascii.eqb_eq. split.
    + intros ->. now exists rest.
    + intros [rest' [= -> _]]. reflexivity.
Qed.

(** ** C10: bindings of the root *)

(** C10. For an element with no parent scope the scope walk inspects no
    scope at all, whatever the fuel: [isCppRegisteredObject] answers no for
    every id, no text is an object binding, and [run] emits nothing, also
    when a child of this element is declared with the id and a registered
    type. *)
Theorem root_bindings_are_never_flagged (fuel : nat) (st : Store) (element : Element) :
  parentScope st element = None ->
  (forall objectId, isCppRegisteredObject fuel st objectId element = Some false)
  /\ (forall script, isCppObjectBinding fuel st script element = Some false)
  /\ run fuel st element = Some [].
Proof.
  intros Hroot.
  assert (forall objectId, isCppRegisteredObject fuel st objectId element = Some false)
    as Hwalk.
  { intros objectId. unfold isCppRegisteredObject. rewrite Hroot. now destruct fuel. }
  assert (forall script, isCppObjectBinding fuel st script element = Some false) as Hgate.
  { intros script. unfold isCppObjectBinding.
    destruct (Regex.hasMatch cppRefPattern script); simpl; [apply Hwalk | reflexivity]. }
  split; [exact Hwalk|]. split; [exact Hgate|].
  unfold run, checkCppObjectBindings. apply checkBindings_silent.
  intros binding _. apply checkBinding_not_object. apply Hgate.
Qed.

Lemma root_bindings_are_never_flagged_witness :
  1 ∈ childScopes rootBindingStore 0
  /\ id rootBindingStore 1 = "cppObj"
  /\ isCppRegisteredType (baseTypeName rootBindingStore 1) = true
  /\ propertyBindings rootBindingStore 0 = [rootBinding]
  /\ isCppRegisteredObject 2 rootBindingStore "cppObj" 0 = Some false
  /\ run 2 rootBindingStore 0 = Some [].
Proof.
  destruct (root_bindings_are_never_flagged 2 rootBindingStore 0) as [Hwalk [_ Hrun]].
  - reflexivity.
  - split; [apply list_elem_of_In; vm_compute; tauto|].
    split; [reflexivity|]. split; [reflexivity|]. split; [reflexivity|].
    split; [apply Hwalk | exact Hrun].
Defined.

(** * Further properties of the pass *)

(** [shouldRun] says yes exactly for the elements that have at least one
    property binding. *)
Lemma shouldRun_iff_has_bindings (st : Store) (element : Element) :
  (shouldRun st element = false <-> propertyBindings st element = [])
  /\ (shouldRun st element = true <-> propertyBindings st element <> []).
Proof.
  unfold shouldRun. destruct (propertyBindings st element); simpl.
  - split; split; intros H; try reflexivity; congruence.
  - split; split; intros H; try reflexivity; congruence.
Qed.

(** ** Parent chains that close on themselves *)

Lemma rootDistance_unique (st : Store) (e : Element) (n m : nat) :
  rootDistance st e n -> rootDistance st e m -> n = m.
Proof.
  intros Hn. revert m. induction Hn as [e Hp | e p n Hp _ IH]; intros m Hm.
  - destruct Hm as [|e p' m Hp' _]; [reflexivity | congruence].
  - destruct Hm as [e Hp' | e p' m Hp' Hm]; [congruence|].
    assert (p' = p) as -> by congruence. f_equal. now apply IH.
Qed.

Lemma rootDistance_of_walk (st : Store) (fuel : nat) (e root : Element) :
  rootWalk fuel st e = Some root -> exists n, n <= fuel /\ rootDistance st e n.
Proof.
  revert e. induction fuel as [|fuel IH]; intros e; simpl;
    destruct (parentScope st e) as [p|] eqn:Hp; try discriminate.
  - intros _. exists 0. split; [lia | now constructor].
  - intros [n [Hn Hd]]%IH. exists (S n). split; [lia | now apply (rd_step st e p)].
  - intros _. exists 0. split; [lia | now constructor].
Qed.

(** A scope around [e] is nearer to the root than [e] is. *)
Lemma rootDistance_of_enclosing (st : Store) (s e : Element) (n : nat) :
  encloses st s e -> rootDistance st e n -> exists m, m < n /\ rootDistance st s m.
Proof.
  unfold encloses. intros Htc. revert n.
  induction Htc as [e s Hstep | e p s Hstep _ IH]; intros n Hd;
    unfold parentOf in Hstep.
  - destruct Hd as [e Hp | e p' n Hp Hd]; [congruence|].
    assert (p' = s) as -> by congruence.
    exists n. split; [lia | assumption].
  - destruct Hd as [e Hp | e p' n Hp Hd]; [congruence|].
    assert (p' = p) as -> by congruence.
    destruct (IH n Hd) as [m [Hm Hs]]. exists m. split; [lia | assumption].
Qed.

(** X1. The search for the root is not protected against a parent chain
    that closes on itself: when the containing element of the binding is
    one of its own enclosing scopes, no number of turns ends the loop of
    [getRootElement]. *)
Theorem getRootElement_never_ends_on_a_cycle
    (fuel : nat) (st : Store) (binding : Binding.t) :
  encloses st (Binding.containingElement binding) (Binding.containingElement binding) ->
  getRootElement fuel st binding = None.
Proof.
  intros Hcycle. unfold getRootElement.
  destruct (rootWalk fuel st (Binding.containingElement binding)) as [root|] eqn:Hwalk;
    [| reflexivity].
  destruct (rootDistance_of_walk st fuel _ _ Hwalk) as [n [_ Hd]].
  destruct (rootDistance_of_enclosing st _ _ n Hcycle Hd) as [m [Hm Hd']].
  pose proof (rootDistance_unique st _ _ _ Hd Hd'). lia.
Qed.

Lemma getRootElement_never_ends_on_a_cycle_witness :
  getRootElement 1000 cyclicStore (Binding.mk "width" "a.b" (SourceLocation.mk 3 3) 0)
  = None.
Proof.
  apply (getRootElement_never_ends_on_a_cycle 1000 cyclicStore
           (Binding.mk "width" "a.b" (SourceLocation.mk 3 3) 0)).
  eapply tc_l; [reflexivity|]. apply tc_once. reflexivity.
Defined.

(** ** The two searches *)

(** X2. The walk of the pass finds every object the nearest-declaration
    search of the specification finds: where that search answers yes, so
    does [isCppRegisteredObject], on the same fuel. *)
Lemma nearest_declaration_is_found
    (fuel : nat) (st : Store) (objectId : string) (element : Element) :
  isNativeObjectReference fuel st objectId element = Some true ->
  isCppRegisteredObject fuel st objectId element = Some true.
Proof. apply nearestDeclarationWalk_true. Qed.

Lemma nearest_declaration_is_found_witness :
  isCppRegisteredObject 3 (siblingStore (SourceLocation.mk 0 120) "cppObj.interval")
    "cppObj" 2 = Some true.
Proof.
  apply (nearest_declaration_is_found 3
           (siblingStore (SourceLocation.mk 0 120) "cppObj.interval") "cppObj" 2).
  reflexivity.
Defined.

(** ** Texts and their parts *)

Lemma contains_dot (s : string) :
  QString.contains s "." = negb (QString.all notDot s).
Proof.
  induction s as [|c s IH]; [reflexivity|].
  cbn [QString.contains QString.all QString.hasPrefix]. rewrite IH.
  unfold notDot. rewrite andb_true_r, (Ascii.eqb_sym "." c).
  destruct (Ascii.eqb c "."); reflexivity.
Qed.

Lemma first_dot (s : string) :
  QString.all notDot s = false ->
  exists a b, s = a +:+ String "." b /\ QString.all notDot a = true.
Proof.
  induction s as [|c s IH]; simpl; [discriminate|].
  destruct (notDot c) eqn:Hc; simpl.
  - intros [a [b [-> Ha]]]%IH. exists (String c a), b.
    split; [reflexivity | simpl; now rewrite Hc].
  - intros _. exists "", s. split; [| reflexivity].
    unfold notDot in Hc. apply negb_false_iff, Ascii.eqb_eq in Hc as ->. reflexivity.
Qed.

Lemma trimRight_cons_no_space (c : ascii) (s : string) :
  QChar.isSpace c = false ->
  QString.trimRight (String c s) = String c (QString.trimRight s).
Proof. intros Hc. simpl. rewrite Hc. now destruct (QString.trimRight s). Qed.

Lemma trimRight_idempotent (s : string) :
  QString.trimRight (QString.trimRight s) = QString.trimRight s.
Proof.
  induction s as [|c s IH]; [reflexivity|]. simpl.
  destruct (QString.trimRight s) as [|x t] eqn:Ht.
  - destruct (QChar.isSpace c) eqn:Hc; [reflexivity|]. simpl. now rewrite Hc.
  - change (QString.trimRight (String c (String x t)))
      with (match QString.trimRight (String x t) with
            | EmptyString => if QChar.isSpace c then EmptyString else String c EmptyString
            | t' => String c t'
            end).
    now rewrite IH.
Qed.

Lemma trimLeft_head (s : string) :
  QString.trimLeft s = ""
  \/ exists c t, QString.trimLeft s = String c t /\ QChar.isSpace c = false.
Proof.
  induction s as [|c s IH]; simpl; [now left|].
  destruct (QChar.isSpace c) eqn:Hc; [exact IH | right; eauto].
Qed.

(** Trimming twice is trimming once. *)
Lemma trimmed_idempotent (s : string) :
  QString.trimmed (QString.trimmed s) = QString.trimmed s.
Proof.
  unfold QString.trimmed.
  destruct (trimLeft_head s) as [-> | [c [t [-> Hc]]]]; [reflexivity|].
  rewrite (trimRight_cons_no_space c t Hc).
  rewrite (trimLeft_no_space c _ Hc).
  rewrite <- (trimRight_cons_no_space c t Hc).
  apply trimRight_idempotent.
Qed.

Lemma trimRight_fixed_tail (a : ascii) (t : string) :
  QString.trimRight (String a t) = String a t -> QString.trimRight t = t.
Proof.
  simpl. destruct (QString.trimRight t) as [|x w].
  - destruct (QChar.isSpace a); [discriminate | now intros [= <-]].
  - now intros [= <-].
Qed.

Lemma hasPrefix_spaces (t u : string) :
  QString.hasPrefix t u = true -> QString.trimRight u = "" -> QString.trimRight t = "".
Proof.
  revert u. induction t as [|a t IH]; intros u; [reflexivity|].
  destruct u as [|x u]; simpl; [discriminate|].
  intros [Hax Hp]%andb_true_iff. apply Ascii.eqb_eq in Hax as ->.
  destruct (QString.trimRight u) eqn:Hu; [| discriminate].
  rewrite (IH u Hp Hu). destruct (QChar.isSpace x); [reflexivity | discriminate].
Qed.

Lemma hasPrefix_trimRight (t u : string) :
  QString.trimRight t = t ->
  QString.hasPrefix t (QString.trimRight u) = QString.hasPrefix t u.
Proof.
  revert t. induction u as [|x u IH]; intros t Ht; [reflexivity|].
  destruct t as [|a t]; [reflexivity|].
  pose proof (trimRight_fixed_tail a t Ht) as Ht'.
  pose proof (IH t Ht') as IHt. clear IH.
  cbn [QString.trimRight].
  destruct (QString.trimRight u) as [|y w] eqn:Hu.
  - assert (QString.hasPrefix t u = QString.hasPrefix t "") as Hp.
    { destruct t as [|b t]; [reflexivity|].
      destruct (QString.hasPrefix (String b t) u) eqn:Hbu; [| reflexivity].
      pose proof (hasPrefix_spaces _ _ Hbu Hu) as H. rewrite Ht' in H. discriminate. }
    destruct (QChar.isSpace x) eqn:Hx.
    + cbn [QString.hasPrefix]. destruct (Ascii.eqb a x) eqn:Hax; [| reflexivity].
      apply Ascii.eqb_eq in Hax as ->. rewrite Hp. simpl.
      destruct t; [| reflexivity].
      simpl in Ht. rewrite Hx in Ht. discriminate.
    + cbn [QString.hasPrefix]. now rewrite Hp.
  - cbn [QString.hasPrefix]. now rewrite IHt.
Qed.

Lemma contains_trimRight (s t : string) :
  QString.trimRight t = t -> t <> "" ->
  QString.contains (QString.trimRight s) t = QString.contains s t.
Proof.
  intros Ht Hne. induction s as [|x s IH]; [reflexivity|].
  assert (QString.contains (QString.trimRight (String x s)) t
          = QString.hasPrefix t (QString.trimRight (String x s))
            || QString.contains (QString.trimRight s) t) as ->.
  { cbn [QString.trimRight].
    destruct (QString.trimRight s) as [|y w] eqn:Hs.
    - destruct (QChar.isSpace x); cbn [QString.contains]; [| reflexivity].
      now destruct (QString.hasPrefix t "").
    - reflexivity. }
  rewrite IH, hasPrefix_trimRight by assumption. reflexivity.
Qed.

Lemma contains_trimLeft (s : string) (c : ascii) (t : string) :
  QChar.isSpace c = false ->
  QString.contains (QString.trimLeft s) (String c t) = QString.contains s (String c t).
Proof.
  intros Hc. induction s as [|x s IH]; [reflexivity|].
  cbn [QString.trimLeft]. destruct (QChar.isSpace x) eqn:Hx; [| reflexivity].
  rewrite IH. cbn [QString.contains QString.hasPrefix].
  destruct (Ascii.eqb c x) eqn:Hcx; [| reflexivity].
  apply Ascii.eqb_eq in Hcx as ->. congruence.
Qed.

(** A word that neither begins nor ends with white space occurs in the
    trimmed text if and only if it occurs in the text. *)
Lemma contains_trimmed (s : string) (c : ascii) (t : string) :
  QChar.isSpace c = false -> QString.trimRight (String c t) = String c t ->
  QString.contains (QString.trimmed s) (String c t) = QString.contains s (String c t).
Proof.
  intros Hc Ht. unfold QString.trimmed.
  rewrite contains_trimRight by (assumption || discriminate).
  now apply contains_trimLeft.
Qed.

Lemma enumTerms_trimmed (s term : string) :
  In term enumTerms ->
  QString.contains (QString.trimmed s) term = QString.contains s term.
Proof.
  simpl. intros [<- | [<- | [<- | [<- | []]]]]; now apply contains_trimmed.
Qed.


Lemma all_trimLeft (f : ascii -> bool) (s : string) :
  QString.all f s = true -> QString.all f (QString.trimLeft s) = true.
Proof.
  induction s as [|c s IH]; [reflexivity|]. intros H. cbn [QString.trimLeft].
  destruct (QChar.isSpace c); [| exact H].
  simpl in H. apply andb_true_iff in H as [_ H]. now apply IH.
Qed.

Lemma all_trimRight (f : ascii -> bool) (s : string) :
  QString.all f s = true -> QString.all f (QString.trimRight s) = true.
Proof.
  induction s as [|c s IH]; [reflexivity|]. simpl.
  intros [Hc Hs]%andb_true_iff. specialize (IH Hs).
  destruct (QString.trimRight s) as [|a w].
  - destruct (QChar.isSpace c); simpl; [reflexivity | now rewrite Hc].
  - change (QString.all f (String c (String a w)))
      with (f c && QString.all f (String a w)).
    now rewrite Hc, IH.
Qed.

Lemma all_trimmed (f : ascii -> bool) (s : string) :
  QString.all f s = true -> QString.all f (QString.trimmed s) = true.
Proof. intros H. unfold QString.trimmed. now apply all_trimRight, all_trimLeft. Qed.

Lemma split_parts_no_sep (sep : ascii) (s : string) :
  Forall (fun part => QString.all (fun c => negb (Ascii.eqb c sep)) part = true)
    (QString.split sep s).
Proof.
  induction s as [|c s IH]; simpl; [now repeat constructor|].
  destruct (Ascii.eqb c sep) eqn:Hc; [now constructor|].
  destruct (QString.split sep s) as [|seg rest];
    [constructor; [simpl; now rewrite Hc | constructor]|].
  inversion IH as [|? ? Hseg Hrest]; subst. constructor; [| assumption].
  simpl. now rewrite Hc, Hseg.
Qed.

(** X3. [parseCppObjectReference] fails exactly on the texts that hold no
    dot, the empty text among them, and on all of these [isEnumBinding]
    answers no. *)
Theorem parse_fails_exactly_without_dot (script : string) (element : Element) :
  (parseCppObjectReference script = None <-> QString.contains script "." = false)
  /\ (QString.contains script "." = false -> isEnumBinding script element = false)
  /\ parseCppObjectReference "" = None.
Proof.
  assert (parseCppObjectReference script = None <-> QString.contains script "." = false)
    as Hiff.
  { rewrite contains_dot, negb_false_iff. unfold parseCppObjectReference.
    destruct (QString.all notDot script) eqn:Hall.
    - rewrite (split_no_sep "." script Hall). tauto.
    - destruct (first_dot script Hall) as [a [b [-> Ha]]].
      rewrite (split_app "." a b Ha).
      pose proof (split_not_nil "." b) as Hne.
      destruct (QString.split "." b); [contradiction|].
      split; discriminate. }
  split; [exact Hiff|]. split; [| reflexivity].
  intros Hno. apply Hiff in Hno. unfold isEnumBinding. now rewrite Hno.
Qed.

Lemma parse_fails_exactly_without_dot_witness :
  isEnumBinding "Qt::Horizontal" 0 = false.
Proof.
  destruct (parse_fails_exactly_without_dot "Qt::Horizontal" 0) as [_ [H _]].
  apply H. reflexivity.
Defined.

(** X4. Of a text [o.p] or [o.p.tail], where neither [o] nor [p] holds a
    dot, [parseCppObjectReference] returns [o] and [p], each with the white
    space at its two ends removed; whatever follows the second dot plays no
    role. *)
Theorem parse_reads_first_two_segments (o p : string) :
  QString.all notDot o = true -> QString.all notDot p = true ->
  parseCppObjectReference (o +:+ "." +:+ p) = Some (QString.trimmed o, QString.trimmed p)
  /\ forall tail,
       parseCppObjectReference (o +:+ "." +:+ p +:+ "." +:+ tail)
       = Some (QString.trimmed o, QString.trimmed p).
Proof.
  intros Ho Hp. unfold parseCppObjectReference. split.
  - change ("." +:+ p) with (String "." p).
    now rewrite (split_app "." o p Ho), (split_no_sep "." p Hp).
  - intros tail.
    change ("." +:+ p +:+ "." +:+ tail) with (String "." (p +:+ String "." tail)).
    rewrite (split_app "." o _ Ho), (split_app "." p _ Hp). reflexivity.
Qed.

Lemma parse_reads_first_two_segments_witness :
  parseCppObjectReference " model . count " = Some ("model", "count")
  /\ parseCppObjectReference " model . count .toString()" = Some ("model", "count").
Proof.
  destruct (parse_reads_first_two_segments " model " " count ") as [H1 H2];
    [reflexivity | reflexivity |].
  split; [exact H1 | exact (H2 "toString()")].
Defined.

(** X5. The two components [parseCppObjectReference] returns hold no dot
    and neither begin nor end with white space: trimming them again changes
    nothing. *)
Theorem parse_components_are_clean (script objectId propertyName : string) :
  parseCppObjectReference script = Some (objectId, propertyName) ->
  QString.trimmed objectId = objectId /\ QString.trimmed propertyName = propertyName
  /\ QString.contains objectId "." = false /\ QString.contains propertyName "." = false.
Proof.
  unfold parseCppObjectReference. pose proof (split_parts_no_sep "." script) as Hparts.
  destruct (QString.split "." script) as [|part0 [|part1 parts]]; try discriminate.
  intros [= <- <-].
  inversion Hparts as [|? ? H0 Hrest]; subst. inversion Hrest as [|? ? H1 _]; subst.
  rewrite !trimmed_idempotent, !contains_dot, !negb_false_iff.
  repeat split; try reflexivity; now apply all_trimmed.
Qed.

Lemma parse_components_are_clean_witness :
  QString.trimmed "b + 1" = "b + 1" /\ QString.contains "b + 1" "." = false.
Proof.
  destruct (parse_components_are_clean " a . b + 1 .c" "a" "b + 1") as [_ [H1 [_ H2]]];
    [reflexivity |].
  split; assumption.
Defined.

(** X6. With [o] and [seg] free of dots, [isEnumBinding] says yes for
    [o.seg] and for [o.seg.tail] exactly when one of the four words occurs
    somewhere in [seg], the whole second part of the text, or [::] occurs
    somewhere in the text.  So a word in the object id or behind the second
    dot exempts nothing, and a word anywhere in the second part exempts,
    also outside the property name. *)
Theorem isEnumBinding_reads_second_segment
    (o seg : string) (element : Element) :
  QString.all notDot o = true -> QString.all notDot seg = true ->
  (isEnumBinding (o +:+ "." +:+ seg) element = true
   <-> (exists term, In term enumTerms /\ occursIn term seg)
       \/ occursIn "::" (o +:+ "." +:+ seg))
  /\ forall tail,
       (isEnumBinding (o +:+ "." +:+ seg +:+ "." +:+ tail) element = true
        <-> (exists term, In term enumTerms /\ occursIn term seg)
            \/ occursIn "::" (o +:+ "." +:+ seg +:+ "." +:+ tail)).
Proof.
  intros Ho Hseg.
  destruct (parse_reads_first_two_segments o seg Ho Hseg) as [Hpair Hchain].
  assert (forall script,
            parseCppObjectReference script = Some (QString.trimmed o, QString.trimmed seg) ->
            (isEnumBinding script element = true
             <-> (exists term, In term enumTerms /\ occursIn term seg)
                 \/ occursIn "::" script)) as Hread.
  { intros script Hparse. unfold isEnumBinding. rewrite Hparse.
    rewrite !enumTerms_trimmed by (simpl; tauto).
    now rewrite orb_true_iff, enumTerms_contains, contains_spec. }
  split; [now apply Hread|]. intros tail. apply Hread, Hchain.
Qed.

Lemma isEnumBinding_reads_second_segment_witness :
  isEnumBinding "timer.interval * slowMode" 0 = true
  /\ isEnumBinding "stateMachine.running.currentState" 0 = false.
Proof.
  split.
  - destruct (isEnumBinding_reads_second_segment "timer" "interval * slowMode" 0)
      as [[_ H] _]; [reflexivity | reflexivity |].
    apply H. left. exists "Mode". split; [simpl; tauto|].
    exists "interval * slow", "". reflexivity.
  - destruct (isEnumBinding_reads_second_segment "stateMachine" "running" 0)
      as [_ H]; [reflexivity | reflexivity |].
    destruct (isEnumBinding "stateMachine.running.currentState" 0) eqn:Hb; [| reflexivity].
    apply (H "currentState") in Hb. exfalso.
    destruct Hb as [[term [Hin Ho]] | Ho].
    + simpl in Hin. destruct Hin as [<- | [<- | [<- | [<- | []]]]];
        apply contains_spec in Ho; vm_compute in Ho; discriminate.
    + apply contains_spec in Ho. vm_compute in Ho. discriminate.
Defined.


(** ** Object bindings *)

(** The object id [isCppObjectBinding] looks up is the identifier the text
    begins with. *)
Lemma leading_identifier (id1 sp1 tail : string) :
  isIdentifier id1 = true -> QString.all isPatternSpace sp1 = true ->
  QString.trimmed (hd EmptyString (QString.split "." (id1 +:+ sp1 +:+ "." +:+ tail)))
  = id1.
Proof.
  intros H1 Hs1.
  assert (QString.all notDot (id1 +:+ sp1) = true) as Hnd.
  { rewrite all_app, (identifier_notDot id1 H1). simpl.
    apply (all_impl isPatternSpace); [apply patternSpace_notDot | assumption]. }
  replace (id1 +:+ sp1 +:+ "." +:+ tail) with ((id1 +:+ sp1) +:+ String "." tail)
    by (rewrite append_assoc; reflexivity).
  rewrite (split_app "." _ _ Hnd). simpl hd.
  now apply trimmed_identifier_spaces.
Qed.

(** X7. In a tree, [isCppObjectBinding] says yes exactly for the texts that
    begin with an identifier, white space if any, a dot, white space if
    any, and an identifier, and whose leading identifier is the id of a
    child of registered base type in one of the scopes around the element.
    The property name and what follows it play no role. *)
Theorem object_binding_iff_leading_identifier_registered
    (fuel : nat) (st : Store) (script : string) (element : Element) :
  acyclic st -> size st <= fuel ->
  (isCppObjectBinding fuel st script element = Some true
   <-> exists id1 sp1 sp2 id2 rest s,
         script = id1 +:+ sp1 +:+ "." +:+ sp2 +:+ id2 +:+ rest
         /\ isIdentifier id1 = true /\ QString.all isPatternSpace sp1 = true
         /\ QString.all isPatternSpace sp2 = true /\ isIdentifier id2 = true
         /\ encloses st s element /\ declaresRegistered st id1 s).
Proof.
  intros Hacyclic Hfuel. split.
  - intros Hyes.
    destruct (Regex.hasMatch cppRefPattern script) eqn:Hmatch;
      [| rewrite isCppObjectBinding_no_match in Hyes by assumption; discriminate].
    rewrite isCppObjectBinding_match in Hyes by assumption.
    apply cppRefPattern_hasMatch in Hmatch
      as (id1 & sp1 & sp2 & id2 & rest & -> & H1 & Hs1 & Hs2 & H2).
    rewrite leading_identifier in Hyes by assumption.
    apply scopeWalk_true in Hyes as [s [Hs Hd]].
    exists id1, sp1, sp2, id2, rest, s. auto 10.
  - intros (id1 & sp1 & sp2 & id2 & rest & s & -> & H1 & Hs1 & Hs2 & H2 & Hs & Hd).
    rewrite isCppObjectBinding_match
      by (apply cppRefPattern_hasMatch; exists id1, sp1, sp2, id2, rest; auto).
    rewrite leading_identifier by assumption.
    apply isCppRegisteredObject_true_iff; eauto.
Qed.

Lemma object_binding_iff_leading_identifier_registered_witness :
  exists id1 sp1 sp2 id2 rest s,
    "x . y + 1" = id1 +:+ sp1 +:+ "." +:+ sp2 +:+ id2 +:+ rest
    /\ isIdentifier id1 = true /\ QString.all isPatternSpace sp1 = true
    /\ QString.all isPatternSpace sp2 = true /\ isIdentifier id2 = true
    /\ encloses shadowStore s 4 /\ declaresRegistered shadowStore id1 s.
Proof.
  apply (object_binding_iff_leading_identifier_registered 5 shadowStore "x . y + 1" 4).
  - apply parentsBelow_acyclic. reflexivity.
  - apply Nat.leb_le. reflexivity.
  - reflexivity.
Defined.

(** ** Visibility *)

(** X8. A child of registered base type that is declared with the id in the
    parent scope of an element is found from this element in the first
    turn of the loop, whether the child is a sibling of the element or the
    element itself, and whatever the rest of the store looks like. *)
Theorem registered_sibling_is_found
    (fuel : nat) (st : Store) (objectId : string) (element s child : Element) :
  parentScope st element = Some s ->
  child ∈ childScopes st s ->
  id st child = objectId ->
  isCppRegisteredType (baseTypeName st child) = true ->
  isCppRegisteredObject (S fuel) st objectId element = Some true.
Proof.
  intros Hp Hin Hid Htype. unfold isCppRegisteredObject. rewrite Hp. simpl.
  assert (existsb (isRegisteredChild st objectId) (childScopes st s) = true) as ->;
    [| reflexivity].
  apply isRegisteredChild_exists. exists child. auto.
Qed.

Lemma registered_sibling_is_found_witness :
  isCppRegisteredObject 1 shadowStore "x" 1 = Some true.
Proof.
  apply (registered_sibling_is_found 0 shadowStore "x" 1 0 1);
    [reflexivity | apply list_elem_of_In; vm_compute; tauto | reflexivity | reflexivity].
Defined.

Lemma encloses_trans (st : Store) (a b c : Element) :
  encloses st a b -> encloses st b c -> encloses st a c.
Proof. unfold encloses. intros Hab Hbc. eapply tc_transitive; eassumption. Qed.

(** X9. In a tree, what is found from an element is found from every
    element nested in it, however deep. *)
Theorem registered_object_is_inherited
    (fuel : nat) (st : Store) (objectId : string) (outer inner : Element) :
  acyclic st -> size st <= fuel ->
  encloses st outer inner ->
  isCppRegisteredObject fuel st objectId outer = Some true ->
  isCppRegisteredObject fuel st objectId inner = Some true.
Proof.
  intros Hacyclic Hfuel Hin Houter.
  apply isCppRegisteredObject_true_iff in Houter as [s [Hs Hd]]; try assumption.
  apply isCppRegisteredObject_true_iff; try assumption.
  exists s. split; [| assumption]. now apply (encloses_trans st s outer inner).
Qed.

Lemma registered_object_is_inherited_witness :
  isCppRegisteredObject 5 shadowStore "x" 4 = Some true.
Proof.
  apply (registered_object_is_inherited 5 shadowStore "x" 2 4).
  - apply parentsBelow_acyclic. reflexivity.
  - apply Nat.leb_le. reflexivity.
  - apply tc_once. reflexivity.
  - reflexivity.
Defined.


(** ** The root *)

Lemma rootWalk_ancestor (st : Store) (fuel : nat) (e root : Element) :
  rootWalk fuel st e = Some root ->
  enclosesOrIs st root e /\ parentScope st root = None.
Proof.
  revert e. induction fuel as [|fuel IH]; intros e; simpl;
    destruct (parentScope st e) as [p|] eqn:Hp; try discriminate.
  - intros [= <-]. split; [apply rtc_refl | assumption].
  - intros [Hrtc Hnone]%IH. split; [| assumption].
    eapply rtc_l; [exact Hp | exact Hrtc].
  - intros [= <-]. split; [apply rtc_refl | assumption].
Qed.

(** An element has at most one parentless element above or at it. *)
Lemma parentless_ancestor_unique (st : Store) (e r r' : Element) :
  enclosesOrIs st r e -> parentScope st r = None ->
  enclosesOrIs st r' e -> parentScope st r' = None ->
  r = r'.
Proof.
  unfold enclosesOrIs. intros Hr Hnone Hr' Hnone'.
  induction Hr as [e | e p r Hstep _ IH].
  - destruct Hr' as [| e p r' Hstep _]; [reflexivity|].
    unfold parentOf in Hstep. congruence.
  - destruct Hr' as [| e p' r' Hstep' Hrest].
    + unfold parentOf in Hstep. congruence.
    + unfold parentOf in Hstep, Hstep'.
      assert (p' = p) as -> by congruence. now apply IH.
Qed.

(** X10. In a tree, [getRootElement] returns the one element without parent
    scope that is the containing element of the binding or one of the
    scopes around it. *)
Theorem getRootElement_is_the_parentless_ancestor
    (fuel : nat) (st : Store) (binding : Binding.t) (root : Element) :
  acyclic st -> size st <= fuel ->
  (getRootElement fuel st binding = Some root
   <-> enclosesOrIs st root (Binding.containingElement binding)
       /\ parentScope st root = None).
Proof.
  intros Hacyclic Hfuel. split; [apply rootWalk_ancestor|].
  intros [Hrtc Hnone].
  destruct (rootWalk_total st Hacyclic fuel (Binding.containingElement binding) Hfuel)
    as [root' [Hwalk Hnone']].
  unfold getRootElement. rewrite Hwalk. f_equal.
  destruct (rootWalk_ancestor st fuel _ _ Hwalk) as [Hrtc' _].
  exact (parentless_ancestor_unique st _ root' root Hrtc' Hnone' Hrtc Hnone).
Qed.

Lemma getRootElement_is_the_parentless_ancestor_witness :
  enclosesOrIs shadowStore 0 4 /\ parentScope shadowStore 0 = None.
Proof.
  apply (getRootElement_is_the_parentless_ancestor 5 shadowStore shadowBinding 0).
  - apply parentsBelow_acyclic. reflexivity.
  - apply Nat.leb_le. reflexivity.
  - reflexivity.
Defined.

(** X11. In a tree, the warnings for two bindings whose containing elements
    lie under the same parentless element place their insertions at the
    same location, whatever the two references are. *)
Theorem bindings_under_one_root_share_the_insertion
    (fuel : nat) (st : Store) (root : Element) (binding1 binding2 : Binding.t)
    (objectId1 propertyName1 objectId2 propertyName2 : string) :
  acyclic st -> size st <= fuel ->
  parentScope st root = None ->
  enclosesOrIs st root (Binding.containingElement binding1) ->
  enclosesOrIs st root (Binding.containingElement binding2) ->
  exists w1 w2 insertLocation text1 text2,
    emitCppBindingWarning fuel st binding1 objectId1 propertyName1 = Some [w1]
    /\ emitCppBindingWarning fuel st binding2 objectId2 propertyName2 = Some [w2]
    /\ insertionOf (fixSuggestion w1) = Some (insertLocation, text1)
    /\ insertionOf (fixSuggestion w2) = Some (insertLocation, text2).
Proof.
  intros Hacyclic Hfuel Hnone H1 H2.
  assert (getRootElement fuel st binding1 = Some root) as Hroot1
      by (apply getRootElement_is_the_parentless_ancestor; auto).
  assert (getRootElement fuel st binding2 = Some root) as Hroot2
      by (apply getRootElement_is_the_parentless_ancestor; auto).
  exists (warningOf (sourceLocation st root) binding1 objectId1 propertyName1),
    (warningOf (sourceLocation st root) binding2 objectId2 propertyName2),
    (insertLocationOf (sourceLocation st root)).
  eexists. eexists.
  split; [now apply emitCppBindingWarning_root|].
  split; [now apply emitCppBindingWarning_root|].
  split; reflexivity.
Qed.

Lemma bindings_under_one_root_share_the_insertion_witness :
  exists w1 w2 insertLocation text1 text2,
    emitCppBindingWarning 5 shadowStore shadowBinding "x" "y" = Some [w1]
    /\ emitCppBindingWarning 5 shadowStore (Binding.mk "z" "x.z" (SourceLocation.mk 40 5) 2)
         "x" "z" = Some [w2]
    /\ insertionOf (fixSuggestion w1) = Some (insertLocation, text1)
    /\ insertionOf (fixSuggestion w2) = Some (insertLocation, text2).
Proof.
  apply (bindings_under_one_root_share_the_insertion 5 shadowStore 0).
  - apply parentsBelow_acyclic. reflexivity.
  - apply Nat.leb_le. reflexivity.
  - reflexivity.
  - eapply rtc_l; [reflexivity|]. eapply rtc_l; [reflexivity|]. apply rtc_refl.
  - eapply rtc_l; [reflexivity|]. apply rtc_refl.
Defined.

(** ** How many turns the loops take *)

(** The elements passed on the way to the root are all different, and all
    in the store. *)
Lemma rootDistance_chain (st : Store) (e : Element) (n : nat) :
  rootDistance st e n ->
  exists l : list Element,
    length l = n /\ NoDup l
    /\ forall h, h ∈ l -> h ∈ dom st /\ exists k, k < n /\ rootDistance st h (S k).
Proof.
  induction 1 as [e Hp | e p n Hp Hd [l [Hlen [Hnodup Hall]]]].
  - exists []. split; [reflexivity|]. split; [constructor|].
    intros h Hh. inversion Hh.
  - exists (e :: l). split; [simpl; now rewrite Hlen|]. split.
    + constructor; [| assumption]. intros Hin.
      destruct (Hall e Hin) as [_ [k [Hk Hek]]].
      pose proof (rootDistance_unique st e _ _ Hek (rd_step st e p n Hp Hd)). lia.
    + intros h [-> | Hh]%elem_of_cons.
      * split; [eapply parentScope_in_dom; eauto|].
        exists n. split; [lia | now apply (rd_step st e p)].
      * destruct (Hall h Hh) as [Hdom [k [Hk Hhk]]].
        split; [assumption|]. exists k. split; [lia | assumption].
Qed.

Lemma chain_within_store (st : Store) (l : list Element) :
  NoDup l -> (forall h, h ∈ l -> h ∈ dom st) -> length l <= size st.
Proof.
  intros Hnodup Hall.
  rewrite <- (size_list_to_set (C := gset Element) l Hnodup), <- (size_dom st).
  apply subseteq_size. intros h Hh. apply Hall. now apply elem_of_list_to_set in Hh.
Qed.

Lemma rootDistance_within_store (st : Store) (e : Element) (n : nat) :
  rootDistance st e n -> n <= size st.
Proof.
  intros (l & <- & Hnodup & Hall)%rootDistance_chain.
  apply chain_within_store; [assumption|]. intros h Hh. now apply Hall.
Qed.

(** X12. Whatever the store, tree or not: when the loop of [getRootElement]
    ends at all, it ends within as many turns as the store has elements,
    and on the same element with every larger number of turns. *)
Theorem getRootElement_ends_within_store_size
    (fuel fuel' : nat) (st : Store) (binding : Binding.t) (root : Element) :
  getRootElement fuel st binding = Some root ->
  size st <= fuel' ->
  getRootElement fuel' st binding = Some root.
Proof.
  unfold getRootElement. intros Hends Hfuel.
  destruct (rootDistance_of_walk st fuel _ _ Hends) as [n [_ Hd]].
  pose proof (rootDistance_within_store st _ n Hd) as Hn.
  destruct (rootWalk_reaches st _ n Hd fuel' ltac:(lia)) as [root' [Hwalk _]].
  rewrite Hwalk. f_equal.
  pose proof (rootWalk_fuel st fuel (Nat.max fuel fuel') _ _ Hends ltac:(lia)) as H1.
  pose proof (rootWalk_fuel st fuel' (Nat.max fuel fuel') _ _ Hwalk ltac:(lia)) as H2.
  congruence.
Qed.

Lemma getRootElement_ends_within_store_size_witness :
  getRootElement 5 shadowStore shadowBinding = Some 0.
Proof.
  apply (getRootElement_ends_within_store_size 100 5 shadowStore shadowBinding 0).
  - reflexivity.
  - apply Nat.leb_le. reflexivity.
Defined.


Lemma scopeWalk_true_distance (st : Store) (objectId : string) :
  forall fuel e,
    scopeWalk fuel st objectId (parentScope st e) = Some true ->
    exists n, n <= fuel /\ foundDistance st objectId e n.
Proof.
  induction fuel as [|fuel IH]; intros e;
    destruct (parentScope st e) as [s|] eqn:Hp; simpl; try discriminate.
  destruct (existsb _ _) eqn:Hfound.
  - intros _. exists 1. split; [lia | now apply (fd_here st objectId e s)].
  - intros [n [Hn Hd]]%IH. exists (S n). split; [lia | now apply (fd_up st objectId e s)].
Qed.

Lemma scopeWalk_false_distance (st : Store) (objectId : string) :
  forall fuel e,
    scopeWalk fuel st objectId (parentScope st e) = Some false ->
    exists n, n <= fuel /\ rootDistance st e n.
Proof.
  induction fuel as [|fuel IH]; intros e;
    destruct (parentScope st e) as [s|] eqn:Hp; simpl; try discriminate;
    try (intros _; exists 0; split; [lia | now constructor]).
  destruct (existsb _ _); [discriminate|].
  intros [n [Hn Hd]]%IH. exists (S n). split; [lia | now apply (rd_step st e s)].
Qed.

Lemma foundDistance_functional (st : Store) (objectId : string) (e : Element) (n m : nat) :
  foundDistance st objectId e n -> foundDistance st objectId e m -> n = m.
Proof.
  intros Hn. revert m.
  induction Hn as [e s Hp Hfound | e s n Hp Hfound _ IH]; intros m Hm.
  - destruct Hm as [e s' Hp' _ | e s' m Hp' Hfound' _]; [reflexivity|].
    assert (s' = s) as -> by congruence. congruence.
  - destruct Hm as [e s' Hp' Hfound' | e s' m Hp' _ Hm].
    + assert (s' = s) as -> by congruence. congruence.
    + assert (s' = s) as -> by congruence. f_equal. now apply IH.
Qed.

Lemma foundDistance_chain (st : Store) (objectId : string) (e : Element) (n : nat) :
  foundDistance st objectId e n ->
  exists l : list Element,
    length l = n /\ NoDup l
    /\ forall h, h ∈ l -> h ∈ dom st /\ exists k, k < n /\ foundDistance st objectId h (S k).
Proof.
  induction 1 as [e s Hp Hfound | e s n Hp Hfound Hd [l [Hlen [Hnodup Hall]]]].
  - exists [e]. split; [reflexivity|]. split; [apply NoDup_singleton|].
    intros h [-> | Hh]%elem_of_cons; [| inversion Hh].
    split; [eapply parentScope_in_dom; eauto|].
    exists 0. split; [lia | now apply (fd_here st objectId e s)].
  - exists (e :: l). split; [simpl; now rewrite Hlen|]. split.
    + constructor; [| assumption]. intros Hin.
      destruct (Hall e Hin) as [_ [k [Hk Hek]]].
      pose proof (foundDistance_functional st objectId e _ _ Hek
                    (fd_up st objectId e s n Hp Hfound Hd)). lia.
    + intros h [-> | Hh]%elem_of_cons.
      * split; [eapply parentScope_in_dom; eauto|].
        exists n. split; [lia | now apply (fd_up st objectId e s)].
      * destruct (Hall h Hh) as [Hdom [k [Hk Hhk]]].
        split; [assumption|]. exists k. split; [lia | assumption].
Qed.

Lemma foundDistance_walk (st : Store) (objectId : string) (e : Element) (n : nat) :
  foundDistance st objectId e n ->
  forall fuel, n <= fuel -> scopeWalk fuel st objectId (parentScope st e) = Some true.
Proof.
  induction 1 as [e s Hp Hfound | e s n Hp Hfound _ IH]; intros fuel Hfuel;
    (destruct fuel as [|fuel]; [lia|]); rewrite Hp; simpl; rewrite Hfound.
  - reflexivity.
  - apply IH. lia.
Qed.

(** X13. Whatever the store, tree or not: when the loop of
    [isCppRegisteredObject] ends at all, it ends within as many turns as
    the store has elements, and with the same answer for every larger
    number of turns. *)
Theorem isCppRegisteredObject_ends_within_store_size
    (fuel fuel' : nat) (st : Store) (objectId : string) (element : Element)
    (found : bool) :
  isCppRegisteredObject fuel st objectId element = Some found ->
  size st <= fuel' ->
  isCppRegisteredObject fuel' st objectId element = Some found.
Proof.
  unfold isCppRegisteredObject. intros Hends Hfuel. destruct found.
  - destruct (scopeWalk_true_distance st objectId fuel element Hends) as [n [_ Hd]].
    apply (foundDistance_walk st objectId element n Hd).
    destruct (foundDistance_chain st objectId element n Hd) as (l & <- & Hnodup & Hall).
    etransitivity; [| exact Hfuel].
    apply chain_within_store; [assumption|]. intros h Hh. now apply Hall.
  - destruct (scopeWalk_false_distance st objectId fuel element Hends) as [n [_ Hd]].
    pose proof (rootDistance_within_store st element n Hd) as Hn.
    destruct (scopeWalk_answers st objectId element n Hd fuel' ltac:(lia)) as [found' Hwalk].
    rewrite Hwalk. f_equal.
    pose proof (scopeWalk_fuel st objectId fuel (Nat.max fuel fuel') _ _ Hends ltac:(lia))
      as H1.
    pose proof (scopeWalk_fuel st objectId fuel' (Nat.max fuel fuel') _ _ Hwalk ltac:(lia))
      as H2.
    congruence.
Qed.

Lemma isCppRegisteredObject_ends_within_store_size_witness :
  isCppRegisteredObject 5 shadowStore "x" 4 = Some true.
Proof.
  apply (isCppRegisteredObject_ends_within_store_size 100 5 shadowStore "x" 4 true).
  - reflexivity.
  - apply Nat.leb_le. reflexivity.
Defined.

(** ** The alias name *)

Lemma emitCppBindingWarning_inv (fuel : nat) (st : Store) (binding : Binding.t)
    (objectId propertyName : string) (w : Warning) :
  emitCppBindingWarning fuel st binding objectId propertyName = Some [w] ->
  exists root,
    getRootElement fuel st binding = Some root
    /\ w = warningOf (sourceLocation st root) binding objectId propertyName.
Proof.
  destruct (getRootElement fuel st binding) as [root|] eqn:Hroot.
  - rewrite (emitCppBindingWarning_root fuel st binding objectId propertyName root Hroot).
    intros [= <-]. now exists root.
  - unfold emitCppBindingWarning. rewrite Hroot. discriminate.
Qed.

Lemma append_same_prefix (a x : string) : a +:+ x = a -> x = "".
Proof.
  induction a as [|c a IH]; simpl; [auto|]. intros [= H]. now apply IH.
Qed.

Lemma underscore_split (a a' p p' : string) :
  QString.all notUnderscore a = true -> QString.all notUnderscore a' = true ->
  a +:+ String "_" p = a' +:+ String "_" p' -> a = a' /\ p = p'.
Proof.
  revert a'. induction a as [|c a IH]; intros [|c' a']; simpl.
  - intros _ _ [= ->]. auto.
  - intros _ [Hc _]%andb_true_iff [= <- _]. discriminate.
  - intros [Hc _]%andb_true_iff _ [= -> _]. discriminate.
  - intros [_ Ha]%andb_true_iff [_ Ha']%andb_true_iff [= -> H].
    destruct (IH a' Ha Ha' H) as [-> ->]. auto.
Qed.

(** X14. The alias name does not tell references apart: the reference with
    object id [a_b] and property [c] and the reference with object id [a]
    and property [b_c] are different, and their fixes replace the binding
    by the same alias name. *)
Theorem alias_names_collide
    (fuel : nat) (st : Store) (binding : Binding.t) (a b c : string) :
  acyclic st -> size st <= fuel ->
  (a +:+ "_" +:+ b, c) <> (a, b +:+ "_" +:+ c)
  /\ exists w1 w2 l name,
       emitCppBindingWarning fuel st binding (a +:+ "_" +:+ b) c = Some [w1]
       /\ emitCppBindingWarning fuel st binding a (b +:+ "_" +:+ c) = Some [w2]
       /\ replacementOf (fixSuggestion w1) = Some (l, name)
       /\ replacementOf (fixSuggestion w2) = Some (l, name).
Proof.
  intros Hacyclic Hfuel. split.
  - intros [= H _]. apply append_same_prefix in H. discriminate.
  - destruct (emitCppBindingWarning_total fuel st binding (a +:+ "_" +:+ b) c
                Hacyclic Hfuel) as [root [Hroot [_ H1]]].
    pose proof (emitCppBindingWarning_root fuel st binding a (b +:+ "_" +:+ c) root Hroot)
      as H2.
    do 2 eexists. exists (Binding.sourceLocation binding), (aliasNameOf a (b +:+ "_" +:+ c)).
    split; [exact H1|]. split; [exact H2|]. split; [| reflexivity].
    unfold replacementOf, warningOf, aliasNameOf. simpl.
    now rewrite !append_assoc.
Qed.

Lemma alias_names_collide_witness :
  exists w1 w2 l name,
    emitCppBindingWarning 3 (siblingStore (SourceLocation.mk 0 120) "net_cfg.port")
      (siblingBinding "net_cfg.port") ("net" +:+ "_" +:+ "cfg") "port" = Some [w1]
    /\ emitCppBindingWarning 3 (siblingStore (SourceLocation.mk 0 120) "net_cfg.port")
         (siblingBinding "net_cfg.port") "net" ("cfg" +:+ "_" +:+ "port") = Some [w2]
    /\ replacementOf (fixSuggestion w1) = Some (l, name)
    /\ replacementOf (fixSuggestion w2) = Some (l, name).
Proof.
  apply (alias_names_collide 3 (siblingStore (SourceLocation.mk 0 120) "net_cfg.port")
           (siblingBinding "net_cfg.port") "net" "cfg" "port").
  - apply parentsBelow_acyclic. reflexivity.
  - apply Nat.leb_le. reflexivity.
Defined.

(** X15. Among object ids without underscore the alias name does tell
    references apart: two warnings whose fixes replace by the same alias
    name were emitted for the same object id and the same property name. *)
Theorem alias_name_determines_reference
    (fuel : nat) (st : Store) (binding1 binding2 : Binding.t)
    (objectId1 propertyName1 objectId2 propertyName2 : string)
    (w1 w2 : Warning) (l1 l2 : SourceLocation.t) (name : string) :
  QString.all notUnderscore objectId1 = true ->
  QString.all notUnderscore objectId2 = true ->
  emitCppBindingWarning fuel st binding1 objectId1 propertyName1 = Some [w1] ->
  emitCppBindingWarning fuel st binding2 objectId2 propertyName2 = Some [w2] ->
  replacementOf (fixSuggestion w1) = Some (l1, name) ->
  replacementOf (fixSuggestion w2) = Some (l2, name) ->
  objectId1 = objectId2 /\ propertyName1 = propertyName2.
Proof.
  intros Ho1 Ho2 [root1 [_ ->]]%emitCppBindingWarning_inv
    [root2 [_ ->]]%emitCppBindingWarning_inv.
  unfold replacementOf, warningOf, aliasNameOf. simpl.
  intros [= _ <-] [= _ H].
  symmetry in H. now apply underscore_split in H.
Qed.

Lemma alias_name_determines_reference_witness :
  "cppObj" = "cppObj" /\ "interval" = "interval".
Proof.
  apply (alias_name_determines_reference 3
           (siblingStore (SourceLocation.mk 0 120) "cppObj.interval")
           (siblingBinding "cppObj.interval") (siblingBinding "cppObj.interval")
           "cppObj" "interval" "cppObj" "interval"
           (warningOf (SourceLocation.mk 0 120) (siblingBinding "cppObj.interval")
              "cppObj" "interval")
           (warningOf (SourceLocation.mk 0 120) (siblingBinding "cppObj.interval")
              "cppObj" "interval")
           (SourceLocation.mk 60 15) (SourceLocation.mk 60 15) "als_cppObj_interval");
    reflexivity.
Defined.

(** ** The two edits of a fix *)

(** X16. When the span of the binding ends before the last character of
    the root element's span, and the root's span ends within the [quint32]
    range, the insertion is placed at or behind the end of the span that
    the replacement rewrites: the two edits of the fix do not overlap. *)
Theorem edits_do_not_overlap
    (fuel : nat) (st : Store) (binding : Binding.t) (objectId propertyName : string)
    (root : Element) :
  getRootElement fuel st binding = Some root ->
  (0 <= SourceLocation.offset (Binding.sourceLocation binding))%Z ->
  (0 <= SourceLocation.length (Binding.sourceLocation binding))%Z ->
  (SourceLocation.offset (Binding.sourceLocation binding)
   + SourceLocation.length (Binding.sourceLocation binding)
   <= SourceLocation.offset (sourceLocation st root)
      + SourceLocation.length (sourceLocation st root) - 1)%Z ->
  (SourceLocation.offset (sourceLocation st root)
   + SourceLocation.length (sourceLocation st root) <= 2 ^ 32)%Z ->
  exists w insertLocation text replaced newText,
    emitCppBindingWarning fuel st binding objectId propertyName = Some [w]
    /\ insertionOf (fixSuggestion w) = Some (insertLocation, text)
    /\ replacementOf (fixSuggestion w) = Some (replaced, newText)
    /\ replaced = Binding.sourceLocation binding
    /\ (SourceLocation.offset replaced + SourceLocation.length replaced
        <= SourceLocation.offset insertLocation)%Z.
Proof.
  intros Hroot Hoffset Hlength Hinside Hend.
  exists (warningOf (sourceLocation st root) binding objectId propertyName),
    (insertLocationOf (sourceLocation st root)).
  do 3 eexists.
  split; [now apply emitCppBindingWarning_root|].
  split; [reflexivity|]. split; [reflexivity|]. split; [reflexivity|].
  simpl. rewrite quint32_small by lia. lia.
Qed.

Lemma edits_do_not_overlap_witness :
  exists w insertLocation text replaced newText,
    emitCppBindingWarning 3 (siblingStore (SourceLocation.mk 0 120) "cppObj.interval")
      (siblingBinding "cppObj.interval") "cppObj" "interval" = Some [w]
    /\ insertionOf (fixSuggestion w) = Some (insertLocation, text)
    /\ replacementOf (fixSuggestion w) = Some (replaced, newText)
    /\ replaced = SourceLocation.mk 60 15
    /\ (SourceLocation.offset replaced + SourceLocation.length replaced
        <= SourceLocation.offset insertLocation)%Z.
Proof.
  apply (edits_do_not_overlap 3 (siblingStore (SourceLocation.mk 0 120) "cppObj.interval")
           (siblingBinding "cppObj.interval") "cppObj" "interval" 0);
    [reflexivity | vm_compute; discriminate ..].
Defined.

(** X17. The location of the insertion is the location of the root element
    with its offset moved and nothing else changed: it keeps the length of
    the root's span. *)
Theorem insertion_location_keeps_root_length
    (fuel : nat) (st : Store) (binding : Binding.t) (objectId propertyName : string)
    (root : Element) :
  getRootElement fuel st binding = Some root ->
  exists w insertLocation text,
    emitCppBindingWarning fuel st binding objectId propertyName = Some [w]
    /\ insertionOf (fixSuggestion w) = Some (insertLocation, text)
    /\ SourceLocation.length insertLocation
       = SourceLocation.length (sourceLocation st root).
Proof.
  intros Hroot.
  exists (warningOf (sourceLocation st root) binding objectId propertyName),
    (insertLocationOf (sourceLocation st root)).
  eexists. split; [now apply emitCppBindingWarning_root|]. split; reflexivity.
Qed.

Lemma insertion_location_keeps_root_length_witness :
  exists w insertLocation text,
    emitCppBindingWarning 3 (siblingStore (SourceLocation.mk 0 120) "cppObj.interval")
      (siblingBinding "cppObj.interval") "cppObj" "interval" = Some [w]
    /\ insertionOf (fixSuggestion w) = Some (insertLocation, text)
    /\ SourceLocation.length insertLocation = 120%Z.
Proof.
  apply (insertion_location_keeps_root_length 3
           (siblingStore (SourceLocation.mk 0 120) "cppObj.interval")
           (siblingBinding "cppObj.interval") "cppObj" "interval" 0).
  reflexivity.
Defined.

(** ** Detection and extraction together *)

(** X18. A text that [isCppObjectBinding] accepts always has a reference:
    [parseCppObjectReference] succeeds on it, the object id it returns is
    an identifier, the very one the scope walk found registered, and the
    property name it returns begins with an identifier. *)
Theorem object_binding_has_a_reference
    (fuel : nat) (st : Store) (script : string) (element : Element) :
  isCppObjectBinding fuel st script element = Some true ->
  exists objectId propertyName id2 more,
    parseCppObjectReference script = Some (objectId, propertyName)
    /\ isIdentifier objectId = true
    /\ isCppRegisteredObject fuel st objectId element = Some true
    /\ propertyName = id2 +:+ more /\ isIdentifier id2 = true.
Proof.
  intros Hyes.
  destruct (Regex.hasMatch cppRefPattern script) eqn:Hmatch;
    [| rewrite isCppObjectBinding_no_match in Hyes by assumption; discriminate].
  rewrite isCppObjectBinding_match in Hyes by assumption.
  destruct (matching_candidate script Hmatch) as (id1 & id2 & more & H1 & H2 & Hhd & Hparse).
  rewrite Hhd in Hyes.
  exists id1, (id2 +:+ more), id2, more. auto.
Qed.

Lemma object_binding_has_a_reference_witness :
  exists objectId propertyName id2 more,
    parseCppObjectReference "x . y + 1" = Some (objectId, propertyName)
    /\ isIdentifier objectId = true
    /\ isCppRegisteredObject 5 shadowStore objectId 4 = Some true
    /\ propertyName = id2 +:+ more /\ isIdentifier id2 = true.
Proof.
  apply (object_binding_has_a_reference 5 shadowStore "x . y + 1" 4). reflexivity.
Defined.

(** ** One call of [cppObjectReference] *)

(** X19. Whatever it is called with, [cppObjectReference] emits at most one
    warning, none for a text [isEnumBinding] exempts; a warning it emits is
    reported at the span of the binding, the span its fix replaces. *)
Theorem cppObjectReference_emits_at_most_one
    (fuel : nat) (st : Store) (binding : Binding.t) (element : Element)
    (script objectId propertyName : string) (ws : list Warning) :
  cppObjectReference fuel st binding element script objectId propertyName = Some ws ->
  (isEnumBinding script element = true /\ ws = [])
  \/ (isEnumBinding script element = false
      /\ exists w newText,
           ws = [w]
           /\ location w = Binding.sourceLocation binding
           /\ replacementOf (fixSuggestion w)
              = Some (Binding.sourceLocation binding, newText)).
Proof.
  unfold cppObjectReference. destruct (isEnumBinding script element); simpl.
  - intros [= <-]. now left.
  - intros Hemit. right. split; [reflexivity|].
    destruct (getRootElement fuel st binding) as [root|] eqn:Hroot.
    + rewrite (emitCppBindingWarning_root _ _ _ _ _ root Hroot) in Hemit.
      injection Hemit as <-. do 2 eexists. repeat split.
    + unfold emitCppBindingWarning in Hemit. rewrite Hroot in Hemit. discriminate.
Qed.

Lemma cppObjectReference_emits_at_most_one_witness :
  exists w newText,
    [warningOf (SourceLocation.mk 0 120) (siblingBinding "cppObj.interval")
       "cppObj" "interval"] = [w]
    /\ location w = SourceLocation.mk 60 15
    /\ replacementOf (fixSuggestion w) = Some (SourceLocation.mk 60 15, newText).
Proof.
  destruct (cppObjectReference_emits_at_most_one 3
              (siblingStore (SourceLocation.mk 0 120) "cppObj.interval")
              (siblingBinding "cppObj.interval") 2 "cppObj.interval" "cppObj" "interval"
              [warningOf (SourceLocation.mk 0 120) (siblingBinding "cppObj.interval")
                 "cppObj" "interval"] eq_refl) as [[H _] | [_ H]].
  - vm_compute in H. discriminate.
  - exact H.
Defined.
